(** * pipgrip: the package source adapter ([src/pipgrip/package_source.py])

    A shallow embedding of [Dependency] and [PackageSource] and the
    properties of the adapter contract.

    The module talks to four collaborators whose code lives elsewhere:
    the semver library (versions and parsed constraints), the mixology
    range algebra, [pkg_resources] and the discovery call of
    [pipgrip.pipper].  They are gathered in the class [Collaborators];
    every definition below is generic in it. *)

From stdpp Require Import gmap strings list fin_maps sorting.
From Stdlib Require Import Ascii.

(** ** Values of the collaborating libraries *)

(** [semver.VersionRange]: the attributes read by [convert_dependency]. *)
Module VersionRange.
Record t (V : Type) : Type := mk {
  min : option V;
  max : option V;
  include_min : bool;
  include_max : bool
}.
Arguments mk {V} _ _ _ _.
Arguments min {V} _.
Arguments max {V} _.
Arguments include_min {V} _.
Arguments include_max {V} _.
End VersionRange.

(** What [parse_constraint] hands back: [convert_dependency] tells a
    [VersionRange] (first branch of its [isinstance] test) from a
    [VersionUnion], of which it reads [ranges]. *)
Inductive VersionConstraint (V : Type) : Type :=
| IsVersionRange (r : VersionRange.t V)
| IsVersionUnion (ranges : list (VersionRange.t V)).
Arguments IsVersionRange {V} r.
Arguments IsVersionUnion {V} ranges.

(** [mixology.Range(min, max, include_min, include_max, string)]; the
    last argument is optional. *)
Module Range.
Record t (V : Type) : Type := mk {
  min : option V;
  max : option V;
  include_min : bool;
  include_max : bool;
  label : option string
}.
Arguments mk {V} _ _ _ _ _.
Arguments min {V} _.
Arguments max {V} _.
Arguments include_min {V} _.
Arguments include_max {V} _.
Arguments label {V} _.
End Range.

(** [pkg_resources.Requirement]: the attributes read here are [key],
    [specs] (pairs of a comparator and a version text) and [__str__]. *)
Module Requirement.
Record t : Type := mk {
  key : string;
  specs : list (string * string);
  str : string
}.
End Requirement.

(** The dictionary returned by [discover_dependencies_and_versions]:
    the entries [available], [version] and [requires]. *)
Module Discovery.
Record t : Type := mk {
  available : list string;
  version : string;
  requires : list string
}.
End Discovery.

(** ** The collaborators *)

Class Collaborators : Type := {
  (** [pipgrip.libs.semver] *)
  Version : Type;
  Version_eq_dec :: EqDecision Version;
  Version_countable :: Countable Version;
  (** [Version.parse]; [None] when it raises. *)
  Version_parse : string → option Version;
  (** [Version.__lt__], the comparison used by [sorted]. *)
  Version_lt : Version → Version → bool;
  (** [str(version)] *)
  Version_str : Version → string;
  (** [str(range)] of a member of a union *)
  VersionRange_str : VersionRange.t Version → string;
  (** [parse_constraint]; [None] when it raises. *)
  parse_constraint : string → option (VersionConstraint Version);
  (** [pipgrip.libs.mixology] *)
  Union : Type;
  Union_of : list (Range.t Version) → Range.t Version + Union;
  allows_any : Range.t Version + Union → Range.t Version → bool;
  constraint_str : Range.t Version + Union → string;
  (** [BasePackageSource.root], the reserved identifier *)
  root : string;
  (** [pkg_resources.Requirement.parse]; [None] when it raises. *)
  Requirement_parse : string → option Requirement.t;
  (** [pipgrip.pipper.discover_dependencies_and_versions package
      index_url extra_index_url cache_dir].  The outside world may
      answer differently over time: the first argument is the list of
      the specifications asked so far.  [None] when it raises. *)
  discover_dependencies_and_versions :
    list string → string → string → string → string → option Discovery.t
}.

(** The order on versions that the semver library is expected to
    provide: [<] is a strict total order. *)
Class VersionOrder (E : Collaborators) : Prop := {
  Version_lt_irrefl : ∀ v : Version, Version_lt v v = false;
  Version_lt_trans : ∀ a b c : Version,
    Version_lt a b = true → Version_lt b c = true → Version_lt a c = true;
  Version_lt_total : ∀ a b : Version,
    Version_lt a b = true ∨ a = b ∨ Version_lt b a = true
}.

(** ** Python string helpers *)

(** [sep.join(parts)] *)
Fixpoint join (sep : string) (parts : list string) : string :=
  match parts with
  | [] => ""
  | [p] => p
  | p :: rest => p +:+ sep +:+ join sep rest
  end.

(** [s.replace(old, new)] for a non-empty [old]: occurrences are
    replaced from left to right without overlap.  [skip] counts the
    characters of a match still to be dropped. *)
Fixpoint replace_from (old new : string) (skip : nat) (s : string) : string :=
  match s with
  | EmptyString => EmptyString
  | String c s' =>
      match skip with
      | S k => replace_from old new k s'
      | O =>
          if String.prefix old s
          then new +:+ replace_from old new (String.length old - 1) s'
          else String c (replace_from old new 0 s')
      end
  end.

Definition replace (old new s : string) : string := replace_from old new 0 s.

(** ** Dependency *)

(** The class defines [__init__] and [__str__] only, so [==] on two
    dependencies is the default of [object]: identity.  [oid] is the
    identity of the object, given when it is constructed. *)
Module Dependency.
Record t (V : Type) : Type := mk {
  oid : nat;
  name : string;
  constraint : VersionConstraint V;
  pretty_constraint : string
}.
Arguments mk {V} _ _ _ _.
Arguments oid {V} _.
Arguments name {V} _.
Arguments constraint {V} _.
Arguments pretty_constraint {V} _.

(** [a == b] *)
Definition eq {V} (a b : t V) : bool := Nat.eqb (oid a) (oid b).

(** [__str__] *)
Definition str {V} (d : t V) : string := pretty_constraint d.
End Dependency.

(** [mixology.Constraint(package, constraint)] *)
Module Constraint.
Record t (C : Type) : Type := mk {
  package : string;
  constraint : C
}.
Arguments mk {C} _ _.
Arguments package {C} _.
Arguments constraint {C} _.
End Constraint.

Section Adapter.
Context `{E : Collaborators}.

(** A constraint of the range algebra: a [Range] or a [Union]. *)
Definition RangeConstraint : Type := Range.t Version + Union.

(** ** The adapter object and its surroundings *)

(** The first six fields are the attributes set by [__init__].
    [_packages] maps a name to a dictionary from versions to either
    [None] (dependencies not yet discovered) or the dependency list.
    The last two fields are not attributes of the object: [asked]
    records the specifications passed to the discovery call, oldest
    first, and [next_oid] is the identity of the next object built. *)
Record PackageSource : Type := mkPackageSource {
  _root_version : Version;
  _root_dependencies : list (Dependency.t Version);
  _packages : gmap string (gmap Version (option (list (Dependency.t Version))));
  cache_dir : string;
  index_url : string;
  extra_index_url : string;
  asked : list string;
  next_oid : nat
}.

Definition set_packages
    (f : gmap string (gmap Version (option (list (Dependency.t Version)))) →
         gmap string (gmap Version (option (list (Dependency.t Version)))))
    (s : PackageSource) : PackageSource :=
  mkPackageSource (_root_version s) (_root_dependencies s) (f (_packages s))
    (cache_dir s) (index_url s) (extra_index_url s) (asked s) (next_oid s).

Definition set_root_dependencies
    (f : list (Dependency.t Version) → list (Dependency.t Version))
    (s : PackageSource) : PackageSource :=
  mkPackageSource (_root_version s) (f (_root_dependencies s)) (_packages s)
    (cache_dir s) (index_url s) (extra_index_url s) (asked s) (next_oid s).

Definition set_asked (f : list string → list string)
    (s : PackageSource) : PackageSource :=
  mkPackageSource (_root_version s) (_root_dependencies s) (_packages s)
    (cache_dir s) (index_url s) (extra_index_url s) (f (asked s)) (next_oid s).

Definition set_next_oid (f : nat → nat) (s : PackageSource) : PackageSource :=
  mkPackageSource (_root_version s) (_root_dependencies s) (_packages s)
    (cache_dir s) (index_url s) (extra_index_url s) (asked s) (f (next_oid s)).

(** ** Exceptions and the monad of methods *)

Inductive exn : Type :=
| ValueError (name : string) (version : Version)
| KeyError
| ParseVersionError (text : string)
| ParseConstraintError (text : string)
| RequirementParseError (text : string)
| DiscoveryError (spec : string).

(** A method either returns a value or raises; in both cases the
    mutations done so far stay. *)
Inductive outcome (A : Type) : Type :=
| Return (a : A) (s : PackageSource)
| Raise (e : exn) (s : PackageSource).
Arguments Return {A} a s.
Arguments Raise {A} e s.

Definition M (A : Type) : Type := PackageSource → outcome A.

Definition ret {A} (a : A) : M A := λ s, Return a s.
Definition raise {A} (e : exn) : M A := λ s, Raise e s.
Definition bind {A B} (m : M A) (k : A → M B) : M B :=
  λ s, match m s with
       | Return a s' => k a s'
       | Raise e s' => Raise e s'
       end.
Definition gets {A} (f : PackageSource → A) : M A := λ s, Return (f s) s.
Definition modify (f : PackageSource → PackageSource) : M unit :=
  λ s, Return tt (f s).
Definition or_raise {A} (o : option A) (e : exn) : M A :=
  match o with Some a => ret a | None => raise e end.

Definition final {A} (o : outcome A) : PackageSource :=
  match o with Return _ s => s | Raise _ s => s end.

(** Whether the method returned, rather than raised. *)
Definition returned {A} (o : outcome A) : bool :=
  match o with Return _ _ => true | Raise _ _ => false end.

Notation "'do' x <- m ; k" := (bind m (λ x, k))
  (at level 10, x name, m at level 100, k at level 200).
Notation "m ;; k" := (bind m (λ _, k))
  (at level 100, k at level 200, right associativity).

(** [for x in xs: body(x)] *)
Fixpoint for_each {A} (xs : list A) (body : A → M unit) : M unit :=
  match xs with
  | [] => ret tt
  | x :: rest => body x ;; for_each rest body
  end.

(** A loop that appends one value per element to a fresh list. *)
Fixpoint collect {A B} (xs : list A) (body : A → M B) : M (list B) :=
  match xs with
  | [] => ret []
  | x :: rest => do b <- body x; do bs <- collect rest body; ret (b :: bs)
  end.

(** ** Dependency.__init__ *)

(** [constraint or "*"] *)
Definition or_star (constraint : string) : string :=
  if String.eqb constraint "" then "*" else constraint.

Definition Dependency_init (name constraint : string) : M (Dependency.t Version) :=
  do parsed <- or_raise (parse_constraint (or_star constraint))
                 (ParseConstraintError (or_star constraint));
  do id <- gets next_oid;
  modify (set_next_oid S) ;;
  ret (Dependency.mk id name parsed constraint).

(** ** PackageSource *)

Definition PackageSource_init (cache_dir index_url extra_index_url : string)
    : option PackageSource :=
  v ← Version_parse "0.0.0";
  Some (mkPackageSource v [] ∅ cache_dir index_url extra_index_url [] 0).

Definition root_version (s : PackageSource) : Version := _root_version s.

(** [",".join(["".join(tup) for tup in req.specs])] *)
Definition specs_constraint (req : Requirement.t) : string :=
  join "," (map (λ tup, fst tup +:+ snd tup) (Requirement.specs req)).

(** [self._packages[name]] once [name] is known to be a key *)
Definition versions_of
    (packages : gmap string (gmap Version (option (list (Dependency.t Version)))))
    (name : string) : gmap Version (option (list (Dependency.t Version))) :=
  default ∅ (packages !! name).

(** [if name not in self._packages: self._packages[name] = {}] *)
Definition ensure (name : string)
    (packages : gmap string (gmap Version (option (list (Dependency.t Version)))))
    : gmap string (gmap Version (option (list (Dependency.t Version)))) :=
  match packages !! name with
  | None => <[name := ∅]> packages
  | Some _ => packages
  end.

(** [self._packages[name][version] = entry] *)
Definition put (name : string) (version : Version)
    (entry : option (list (Dependency.t Version)))
    (packages : gmap string (gmap Version (option (list (Dependency.t Version)))))
    : gmap string (gmap Version (option (list (Dependency.t Version)))) :=
  <[name := <[version := entry]> (versions_of packages name)]> packages.

(** The test of line 94: [version in self._packages[name] and not
    (deps is None or self._packages[name][version] is None)]. *)
Definition already_exists {A B} (recorded : option (option A)) (deps : option B)
    : bool :=
  match recorded with
  | None => false
  | Some entry => negb (bool_decide (deps = None :> option B)
                        || bool_decide (entry = None :> option A))
  end.

(** The loop of lines 104 to 108: one [Dependency] per requirement. *)
Definition dependencies_of (deps : list string) : M (list (Dependency.t Version)) :=
  collect deps (λ dep,
    do req <- or_raise (Requirement_parse dep) (RequirementParseError dep);
    Dependency_init (Requirement.key req) (specs_constraint req)).

Definition add (name version : string) (deps : option (list string)) : M unit :=
  do version <- or_raise (Version_parse version) (ParseVersionError version);
  modify (set_packages (ensure name)) ;;
  do recorded <- gets (λ s, versions_of (_packages s) name !! version);
  (if already_exists recorded deps
   then raise (ValueError name version) else ret tt) ;;
  match deps with
  | None => modify (set_packages (put name version None))
  | Some deps =>
      do dependencies <- dependencies_of deps;
      modify (set_packages (put name version (Some dependencies)))
  end.

(** The call of the external collaborator, recorded in [asked]. *)
Definition discover (package : string) : M Discovery.t :=
  do s <- gets id;
  modify (set_asked (λ l, l ++ [package])) ;;
  or_raise (discover_dependencies_and_versions (asked s) package
              (index_url s) (extra_index_url s) (cache_dir s))
           (DiscoveryError package).

Definition discover_and_add (package : string) : M unit :=
  do req <- or_raise (Requirement_parse package) (RequirementParseError package);
  do to_create <- discover package;
  for_each (Discovery.available to_create) (λ version,
    add (Requirement.key req) version None) ;;
  add (Requirement.key req) (Discovery.version to_create)
      (Some (Discovery.requires to_create)).

Definition root_dep (package : string) : M unit :=
  do req <- or_raise (Requirement_parse package) (RequirementParseError package);
  do dep <- Dependency_init (Requirement.key req) (specs_constraint req);
  modify (set_root_dependencies (λ l, l ++ [dep])) ;;
  discover_and_add (Requirement.str req).

(** [str(constraint)]; the default argument [None] prints as its name. *)
Definition str_of_constraint (constraint : option RangeConstraint) : string :=
  match constraint with
  | None => "None"
  | Some c => constraint_str c
  end.

(** [not (a < b)], the order in which [sorted(..., reverse=True)] leaves
    two elements. *)
Definition not_below (a b : Version) : Prop := Version_lt a b = false.

#[global] Instance not_below_dec : RelDecision not_below.
Proof. intros a b. unfold not_below. apply _. Defined.

(** [sorted(versions, reverse=True)]: afterwards no element is smaller
    than a later one. *)
Definition sorted_reverse (versions : list Version) : list Version :=
  merge_sort not_below versions.

(** The test of line 148.  A constraint object is true as a condition;
    only the absent constraint [None] is false. *)
Definition accepts (constraint : option RangeConstraint) (version : Version) : bool :=
  match constraint with
  | None => true
  | Some c => allows_any c (Range.mk (Some version) (Some version) true true None)
  end.

(** The requirement string of line 141. *)
Definition discovery_spec (package : string) (constraint : option RangeConstraint)
    : string :=
  package +:+ replace " " "" (replace "||" "|" (str_of_constraint constraint)).

(** Lines 143 to 153: the answer read off the dictionary. *)
Definition listing (package : string) (constraint : option RangeConstraint)
    (packages : gmap string (gmap Version (option (list (Dependency.t Version)))))
    : list Version :=
  match packages !! package with
  | None => []
  | Some known =>
      sorted_reverse
        (filter (λ version, accepts constraint version = true)
                (map_to_list known).*1)
  end.

Definition _versions_for (package : string) (constraint : option RangeConstraint)
    : M (list Version) :=
  do packages <- gets _packages;
  (if bool_decide (is_Some (packages !! package)) then ret tt
   else discover_and_add (discovery_spec package constraint)) ;;
  do packages <- gets _packages;
  ret (listing package constraint packages).

(** [self._packages[package][version]]; a missing key raises. *)
Definition lookup_entry (package : string) (version : Version)
    : M (option (list (Dependency.t Version))) :=
  do packages <- gets _packages;
  match packages !! package with
  | None => raise KeyError
  | Some known => or_raise (known !! version) KeyError
  end.

(** The value returned is the recorded entry, which is [None] when the
    discovery did not fill it. *)
Definition dependencies_for (package : string) (version : Version)
    : M (option (list (Dependency.t Version))) :=
  if String.eqb package root then
    do deps <- gets _root_dependencies; ret (Some deps)
  else
    do entry <- lookup_entry package version;
    match entry with
    | None => discover_and_add (package +:+ "==" +:+ Version_str version)
    | Some _ => ret tt
    end ;;
    lookup_entry package version.

Definition to_Range (label : VersionRange.t Version → string)
    (range : VersionRange.t Version) : Range.t Version :=
  Range.mk (VersionRange.min range) (VersionRange.max range)
           (VersionRange.include_min range) (VersionRange.include_max range)
           (Some (label range)).

(** A [Range] with the bounds and the inclusion flags of a
    [VersionRange]. *)
Definition same_bounds (range : VersionRange.t Version) (r : Range.t Version) : Prop :=
  Range.min r = VersionRange.min range ∧
  Range.max r = VersionRange.max range ∧
  Range.include_min r = VersionRange.include_min range ∧
  Range.include_max r = VersionRange.include_max range.

Definition convert_dependency (dependency : Dependency.t Version)
    : Constraint.t RangeConstraint :=
  let constraint :=
    match Dependency.constraint dependency with
    | IsVersionRange r =>
        inl (to_Range (λ _, Dependency.pretty_constraint dependency) r)
    | IsVersionUnion ranges =>
        Union_of (map (to_Range VersionRange_str) ranges)
    end in
  Constraint.mk (Dependency.name dependency) constraint.

(** [m] leaves the attribute [f] as it was, however it ends. *)
Definition keeps {A B} (f : PackageSource → B) (m : M A) : Prop :=
  ∀ s, f (final (m s)) = f s.

(** A requirement string the loop of [add] can turn into a
    [Dependency]. *)
Definition well_formed (dep : string) : Prop :=
  ∃ req, Requirement_parse dep = Some req ∧
         is_Some (parse_constraint (or_star (specs_constraint req))).

(** The dependency that [root_dep] builds for the requirement string
    [package] (lines 125 to 127): named after the key of the
    requirement, carrying its joined clauses and what
    [parse_constraint] makes of them. *)
Definition declares (package : string) (dep : Dependency.t Version) : Prop :=
  ∃ req, Requirement_parse package = Some req ∧
         Dependency.name dep = Requirement.key req ∧
         Dependency.pretty_constraint dep = specs_constraint req ∧
         parse_constraint (or_star (specs_constraint req)) =
           Some (Dependency.constraint dep).

End Adapter.

Arguments Return {E A} a s.
Arguments Raise {E A} e s.

Notation "'do' x <- m ; k" := (bind m (λ x, k))
  (at level 10, x name, m at level 100, k at level 200).
Notation "m ;; k" := (bind m (λ _, k))
  (at level 100, k at level 200, right associativity).

(** ** The constraint parser, from its description *)

(** [parse_constraint] belongs to [pipgrip.libs.semver], which is not
    part of the module embedded above.  The definitions of this module
    follow the description of the requirement grammar instead. *)
Module Spec.
Section Parser.
Context {V : Type} (parse : string → option V) (lt : V → V → bool).

(** Modelled from the spec: the comparators of a clause, "the standard
    set [==, !=, >=, <=, >, <]" (the semver parser is missing). *)
Inductive comparator : Type := Eq | Ne | Ge | Le | Gt | Lt.


(** Modelled from the spec: a clause is [comparator version]; the
    comparator is read off the front of the clause (the semver parser
    is missing). *)
Definition split_clause (clause : string) : option (comparator * string) :=
  match clause with
  | String "=" (String "=" rest) => Some (Eq, rest)
  | String "!" (String "=" rest) => Some (Ne, rest)
  | String ">" (String "=" rest) => Some (Ge, rest)
  | String "<" (String "=" rest) => Some (Le, rest)
  | String ">" rest => Some (Gt, rest)
  | String "<" rest => Some (Lt, rest)
  | _ => None
  end.

Definition parse_clause (clause : string) : option (comparator * V) :=
  match split_clause clause with
  | Some (c, text) => match parse text with Some v => Some (c, v) | None => None end
  | None => None
  end.

(** Modelled from the spec: clauses are "comma-joined" (the semver
    parser is missing). *)
Fixpoint split_commas (text : string) : list string :=
  match text with
  | EmptyString => [EmptyString]
  | String c rest =>
      if Ascii.eqb c ","
      then EmptyString :: split_commas rest
      else match split_commas rest with
           | first :: others => String c first :: others
           | [] => [String c EmptyString]
           end
  end.

(** Modelled from the spec: "any version" is the open range, both
    bounds absent (the semver classes are missing). *)
Definition any : VersionRange.t V := VersionRange.mk None None false false.

(** Modelled from the spec: a range contains [v] "under
    inclusive/exclusive boundary rules" (the semver classes are
    missing). *)
Definition above_min (r : VersionRange.t V) (v : V) : bool :=
  match VersionRange.min r with
  | None => true
  | Some m => if VersionRange.include_min r then negb (lt v m) else lt m v
  end.

Definition below_max (r : VersionRange.t V) (v : V) : bool :=
  match VersionRange.max r with
  | None => true
  | Some m => if VersionRange.include_max r then negb (lt m v) else lt v m
  end.

Definition contains (r : VersionRange.t V) (v : V) : bool :=
  above_min r v && below_max r v.


(** Modelled from the spec: the range of one clause.  The result of
    the clauses is "one Range", and no range is what a [!=] asks for,
    so the description gives a [!=] no range (the semver parser is
    missing). *)
Definition clause_range (clause : comparator * V) : option (VersionRange.t V) :=
  match clause with
  | (Eq, x) => Some (VersionRange.mk (Some x) (Some x) true true)
  | (Ne, x) => None
  | (Ge, x) => Some (VersionRange.mk (Some x) None true false)
  | (Le, x) => Some (VersionRange.mk None (Some x) false true)
  | (Gt, x) => Some (VersionRange.mk (Some x) None false false)
  | (Lt, x) => Some (VersionRange.mk None (Some x) false false)
  end.

(** The greater of two lower bounds and the smaller of two upper
    bounds; on a tie the bound is included only if both include it. *)
Definition greater_min (a b : option V * bool) : option V * bool :=
  match a, b with
  | (None, _), _ => b
  | _, (None, _) => a
  | (Some x, ix), (Some y, iy) =>
      if lt x y then b else if lt y x then a else (Some x, ix && iy)
  end.

Definition smaller_max (a b : option V * bool) : option V * bool :=
  match a, b with
  | (None, _), _ => b
  | _, (None, _) => a
  | (Some x, ix), (Some y, iy) =>
      if lt x y then a else if lt y x then b else (Some x, ix && iy)
  end.

(** Modelled from the spec: the invariant of a range, "if both bounds
    present, [min <= max]; if [min == max], both inclusion flags must
    be true (a single-point range) or the range is empty" (the semver
    classes are missing). *)
Definition well_bounded (r : VersionRange.t V) : Prop :=
  match VersionRange.min r, VersionRange.max r with
  | Some x, Some y =>
      lt y x = false ∧
      (x = y →
       (VersionRange.include_min r = true ∧ VersionRange.include_max r = true) ∨
       ∀ v, contains r v = false)
  | _, _ => True
  end.

(** Modelled from the spec: bounds that have crossed leave no version;
    within the invariant that is the range with "[min == max]" and the
    bounds not included, which "is empty" (the semver classes are
    missing). *)
Definition uncross (r : VersionRange.t V) : VersionRange.t V :=
  match VersionRange.min r, VersionRange.max r with
  | Some x, Some y =>
      if lt y x then VersionRange.mk (Some x) (Some x) false false else r
  | _, _ => r
  end.

(** Modelled from the spec: the intersection of two ranges, which
    "ANDs" them into one range (the range algebra is missing). *)
Definition meet (a b : VersionRange.t V) : VersionRange.t V :=
  let lo := greater_min (VersionRange.min a, VersionRange.include_min a)
                        (VersionRange.min b, VersionRange.include_min b) in
  let hi := smaller_max (VersionRange.max a, VersionRange.include_max a)
                        (VersionRange.max b, VersionRange.include_max b) in
  VersionRange.mk (fst lo) (fst hi) (snd lo) (snd hi).

Definition intersect (a b : VersionRange.t V) : VersionRange.t V :=
  uncross (meet a b).

Fixpoint parse_clauses (clauses : list string) : option (list (comparator * V)) :=
  match clauses with
  | [] => Some []
  | c :: rest =>
      match parse_clause c, parse_clauses rest with
      | Some x, Some xs => Some (x :: xs)
      | _, _ => None
      end
  end.

(** Modelled from the spec: "ANDed into one Range", one clause after
    the other onto a range (the semver parser is missing). *)
Fixpoint and_clauses (clauses : list (comparator * V)) (r : VersionRange.t V)
    : option (VersionRange.t V) :=
  match clauses with
  | [] => Some r
  | clause :: rest =>
      match clause_range clause with
      | Some r' => and_clauses rest (intersect r r')
      | None => None
      end
  end.

(** Modelled from the spec: "multiple comma-joined clauses are ANDed
    into one Range; no clauses means any version (open range)", the
    latter written ["*"] by [Dependency.__init__] (the function
    [parse_constraint] of the semver library is missing). *)
Definition parse_constraint (text : string) : option (VersionConstraint V) :=
  if String.eqb text "*" then Some (IsVersionRange any)
  else
    match parse_clauses (split_commas text) with
    | Some clauses =>
        match and_clauses clauses any with
        | Some r => Some (IsVersionRange r)
        | None => None
        end
    | None => None
    end.



End Parser.
End Spec.

(** Modelled from the spec: the collaborators [E] with the parser of
    the description in the place of [parse_constraint] (the semver
    parser is missing). *)
Definition described (E : Collaborators) : Collaborators := {|
  Version := @Version E;
  Version_eq_dec := @Version_eq_dec E;
  Version_countable := @Version_countable E;
  Version_parse := @Version_parse E;
  Version_lt := @Version_lt E;
  Version_str := @Version_str E;
  VersionRange_str := @VersionRange_str E;
  parse_constraint := Spec.parse_constraint (@Version_parse E) (@Version_lt E);
  Union := @Union E;
  Union_of := @Union_of E;
  allows_any := @allows_any E;
  constraint_str := @constraint_str E;
  root := @root E;
  Requirement_parse := @Requirement_parse E;
  discover_dependencies_and_versions := @discover_dependencies_and_versions E
|}.

(** ** A small package index

    A concrete set of collaborators on which the adapter can be run:
    versions are numbered, the index knows the packages [a] and [b],
    and requirement strings are looked up in a table. *)
Module Demo.

Fixpoint assoc {A} (table : list (string * A)) (text : string) : option A :=
  match table with
  | [] => None
  | (k, a) :: rest => if String.eqb k text then Some a else assoc rest text
  end.

Definition parse_version : string → option nat :=
  assoc [("0.0.0", 0); ("1.0.0", 100); ("1.5.0", 150); ("2.0.0", 200)].

Definition version_str (v : nat) : string :=
  match v with
  | 0 => "0.0.0"
  | 100 => "1.0.0"
  | 150 => "1.5.0"
  | 200 => "2.0.0"
  | _ => "?"
  end.

Definition parse_requirement : string → option Requirement.t :=
  assoc [
    ("a", Requirement.mk "a" [] "a");
    ("a==1.0.0", Requirement.mk "a" [("==", "1.0.0")] "a==1.0.0");
    ("a==2.0.0", Requirement.mk "a" [("==", "2.0.0")] "a==2.0.0");
    ("b", Requirement.mk "b" [] "b");
    ("b>=1.0.0,<2.0.0",
     Requirement.mk "b" [(">=", "1.0.0"); ("<", "2.0.0")] "b>=1.0.0,<2.0.0");
    ("b!=1.5.0", Requirement.mk "b" [("!=", "1.5.0")] "b!=1.5.0");
    ("b>1.0.0,!=1.5.0",
     Requirement.mk "b" [(">", "1.0.0"); ("!=", "1.5.0")] "b>1.0.0,!=1.5.0");
    ("Zope>=1.0.0", Requirement.mk "zope" [(">=", "1.0.0")] "Zope>=1.0.0")
  ].

Definition discover (history : list string)
    (package index_url extra_index_url cache_dir : string) : option Discovery.t :=
  assoc [
    ("a", Discovery.mk ["1.0.0"; "2.0.0"] "2.0.0" ["b>=1.0.0,<2.0.0"]);
    ("a==1.0.0", Discovery.mk ["1.0.0"; "2.0.0"] "1.0.0" []);
    ("a==2.0.0", Discovery.mk ["1.0.0"; "2.0.0"] "2.0.0" ["b>=1.0.0,<2.0.0"]);
    ("b", Discovery.mk ["1.0.0"; "1.5.0"] "1.5.0" []);
    ("b>=1.0.0,<2.0.0", Discovery.mk ["1.0.0"; "1.5.0"] "1.5.0" []);
    ("b!=1.5.0", Discovery.mk ["1.0.0"; "1.5.0"] "1.0.0" []);
    ("Zope>=1.0.0", Discovery.mk ["1.0.0"] "1.0.0" [])
  ] package.

Definition range_str (r : Range.t nat) : string :=
  match Range.label r with
  | Some text => text
  | None => "*"
  end.

(** Two ranges meet when the lower bound of each does not pass the
    upper bound of the other. *)
Definition starts_before (a b : Range.t nat) : bool :=
  match Range.min a, Range.max b with
  | Some lo, Some hi =>
      if Range.include_min a && Range.include_max b
      then Nat.leb lo hi else Nat.ltb lo hi
  | _, _ => true
  end.

Definition meets (a b : Range.t nat) : bool :=
  starts_before a b && starts_before b a.

(** The constraint parser of the small index.  It reads the clauses as
    the parser of the description does; beyond it, it reads a [!=] as
    the two ranges around the version, so that a requirement may become
    a union of ranges. *)
Definition clause_ranges (clause : Spec.comparator * nat) : list (VersionRange.t nat) :=
  match Spec.clause_range clause with
  | Some r => [r]
  | None => [VersionRange.mk None (Some (snd clause)) false false;
             VersionRange.mk (Some (snd clause)) None false false]
  end.

Definition and_clause (ranges : list (VersionRange.t nat))
    (clause : Spec.comparator * nat) : list (VersionRange.t nat) :=
  flat_map (λ r, map (Spec.intersect Nat.ltb r) (clause_ranges clause)) ranges.

Definition pack (ranges : list (VersionRange.t nat)) : VersionConstraint nat :=
  match ranges with
  | [r] => IsVersionRange r
  | _ => IsVersionUnion ranges
  end.

Definition read_constraint (text : string) : option (VersionConstraint nat) :=
  if String.eqb text "*" then Some (IsVersionRange Spec.any)
  else
    match Spec.parse_clauses parse_version (Spec.split_commas text) with
    | Some clauses => Some (pack (fold_left and_clause clauses [Spec.any]))
    | None => None
    end.

#[export] Instance index : Collaborators := {|
  Version := nat;
  Version_parse := parse_version;
  Version_lt := Nat.ltb;
  Version_str := version_str;
  VersionRange_str := λ _, "";
  parse_constraint := read_constraint;
  Union := list (Range.t nat);
  Union_of := λ ranges, match ranges with [r] => inl r | _ => inr ranges end;
  allows_any := λ c r,
    match c with
    | inl a => meets a r
    | inr ranges => existsb (λ a, meets a r) ranges
    end;
  constraint_str := λ c,
    match c with inl r => range_str r | inr _ => "" end;
  root := "_root_";
  Requirement_parse := parse_requirement;
  discover_dependencies_and_versions := discover
|}.

(** The adapter as [__init__] leaves it. *)
Definition fresh : PackageSource :=
  mkPackageSource 0 [] ∅ "cache" "https://index" "" [] 0.

(** Runs a method for its effect on the adapter. *)
Definition after {A} (m : M A) (s : PackageSource) : PackageSource := final (m s).

(** The entry recorded for a package and a version. *)
Definition entry (s : PackageSource) (name : string) (version : nat)
    : option (option (list (Dependency.t nat))) :=
  versions_of (_packages s) name !! version.

(** The adapter once the root requirement [a] is declared: version
    [2.0.0] of [a] has its dependency list, version [1.0.0] does not. *)
Definition declared : PackageSource := after (root_dep "a") fresh.

(** The adapter once the root requirement [b] is declared as well. *)
Definition stocked : PackageSource := after (root_dep "b") declared.

(** The constraint [>=1.5.0] of the range algebra. *)
Definition from_1_5 : RangeConstraint :=
  inl (Range.mk (Some 150) None true false (Some ">=1.5.0")).

(** The constraint of the range algebra that allows every version; it
    prints as [*]. *)
Definition anything : RangeConstraint :=
  inl (Range.mk None None false false None).

(** The constraint [>=1.0.0] of the range algebra. *)
Definition from_1_0 : RangeConstraint :=
  inl (Range.mk (Some 100) None true false (Some ">=1.0.0")).

(** The dependency on [b] declared by version [2.0.0] of [a]. *)
Definition b_dep (oid : nat) : Dependency.t nat :=
  Dependency.mk oid "b"
    (IsVersionRange (VersionRange.mk (Some 100) (Some 200) true false))
    ">=1.0.0,<2.0.0".

(** The dependency on any version of [b]. *)
Definition any_b (oid : nat) : Dependency.t nat :=
  Dependency.mk oid "b" (IsVersionRange Spec.any) "".

(** The dependency on the versions of [b] other than [1.5.0]. *)
Definition not_1_5 (oid : nat) : Dependency.t nat :=
  Dependency.mk oid "b"
    (IsVersionUnion [VersionRange.mk None (Some 150) false false;
                     VersionRange.mk (Some 150) None false false])
    "!=1.5.0".

(** The value a method returned, if it returned. *)
Definition value {A} (o : outcome A) : option A :=
  match o with Return a _ => Some a | Raise _ _ => None end.

(** The number of discovery calls made for a specification. *)
Definition times_asked (s : PackageSource) (spec : string) : nat :=
  length (filter (λ x, x = spec) (asked s)).

End Demo.

(** ** An index that answers beside the question

    The small index, with two more answers: asked about version
    [1.0.0] of [b] it answers for version [1.5.0], and asked about the
    versions of [a] from [2.0.0] on it answers for version [2.0.0]
    without listing it as available. *)
Module Stale.

Definition parse_requirement (text : string) : option Requirement.t :=
  match Demo.assoc [
    ("b==1.0.0", Requirement.mk "b" [("==", "1.0.0")] "b==1.0.0");
    ("a>=2.0.0", Requirement.mk "a" [(">=", "2.0.0")] "a>=2.0.0")
  ] text with
  | Some req => Some req
  | None => Demo.parse_requirement text
  end.

Definition discover (history : list string)
    (package index_url extra_index_url cache_dir : string) : option Discovery.t :=
  match Demo.assoc [
    ("b==1.0.0", Discovery.mk ["1.0.0"; "1.5.0"] "1.5.0" []);
    ("a>=2.0.0", Discovery.mk ["1.0.0"] "2.0.0" [])
  ] package with
  | Some d => Some d
  | None => Demo.discover history package index_url extra_index_url cache_dir
  end.

Definition index : Collaborators := {|
  Version := nat;
  Version_parse := Demo.parse_version;
  Version_lt := Nat.ltb;
  Version_str := Demo.version_str;
  VersionRange_str := λ _, "";
  parse_constraint := Demo.read_constraint;
  Union := list (Range.t nat);
  Union_of := λ ranges, match ranges with [r] => inl r | _ => inr ranges end;
  allows_any := λ c r,
    match c with
    | inl a => Demo.meets a r
    | inr ranges => existsb (λ a, Demo.meets a r) ranges
    end;
  constraint_str := λ c,
    match c with inl r => Demo.range_str r | inr _ => "" end;
  root := "_root_";
  Requirement_parse := parse_requirement;
  discover_dependencies_and_versions := discover
|}.

(** The adapter as [__init__] leaves it. *)
Definition fresh : PackageSource (E:=index) :=
  mkPackageSource (E:=index) 0 [] ∅ "cache" "https://index" "" [] 0.

(** The adapter once the root requirements [a] and [b] are declared. *)
Definition stocked : PackageSource (E:=index) :=
  final (root_dep (E:=index) "b" (final (root_dep (E:=index) "a" fresh))).

(** The entry recorded for a package and a version. *)
Definition entry (s : PackageSource (E:=index)) (name : string) (version : nat)
    : option (option (list (Dependency.t nat))) :=
  versions_of (E:=index) (_packages s) name !! version.

End Stale.

(** ** Relations between an adapter and what a method leaves of it *)

Section Relations.
Context `{E : Collaborators}.

(** [m] takes every adapter to one related to it by [R], however it
    ends. *)
Definition respects (R : relation PackageSource) {A} (m : M A) : Prop :=
  ∀ s, R s (final (m s)).

(** The names and versions that are keys in [s] are keys in [s']. *)
Definition keys_kept (s s' : PackageSource) : Prop :=
  (∀ name, is_Some (_packages s !! name) → is_Some (_packages s' !! name)) ∧
  (∀ name version,
     is_Some (versions_of (_packages s) name !! version) →
     is_Some (versions_of (_packages s') name !! version)).

(** No object identity handed out in [s] is free again in [s']. *)
Definition identities_kept (s s' : PackageSource) : Prop :=
  next_oid s ≤ next_oid s'.

(** The attributes set by [__init__] that no method assigns. *)
Definition settings (s : PackageSource) : Version * string * string * string :=
  (_root_version s, cache_dir s, index_url s, extra_index_url s).

Definition settings_kept (s s' : PackageSource) : Prop :=
  settings s' = settings s.

(** The five steps by which the methods change the adapter. *)
Inductive step : PackageSource → PackageSource → Prop :=
| step_ensure s name : step s (set_packages (ensure name) s)
| step_put s name version entry : step s (set_packages (put name version entry) s)
| step_object s : step s (set_next_oid S s)
| step_call s spec : step s (set_asked (λ l, l ++ [spec]) s)
| step_root s dep : step s (set_root_dependencies (λ l, l ++ [dep]) s).

End Relations.

(** A text free of spaces. *)
Fixpoint has_space (text : string) : bool :=
  match text with
  | EmptyString => false
  | String c rest => Ascii.eqb c " " || has_space rest
  end.

(** * Properties *)

Section Facts.
Context `{E : Collaborators}.

Implicit Types (s : PackageSource) (name package : string) (v : Version).

(** ** Running the monad *)

Lemma bind_Return {A B} (m : M A) (k : A → M B) s a s' :
  m s = Return a s' → bind m k s = k a s'.
Proof. intros H. unfold bind. by rewrite H. Qed.

Lemma bind_Raise {A B} (m : M A) (k : A → M B) s e s' :
  m s = Raise e s' → bind m k s = Raise e s'.
Proof. intros H. unfold bind. by rewrite H. Qed.

Lemma final_bind {A B} (m : M A) (k : A → M B) s :
  final (bind m k s) =
  match m s with Return a s' => final (k a s') | Raise _ s' => s' end.
Proof. unfold bind. by destruct (m s). Qed.

(** ** Attributes a method leaves alone *)

Lemma keeps_ret {A B} (f : PackageSource → B) (a : A) : keeps f (ret a).
Proof. by intros s. Qed.

Lemma keeps_raise {A B} (f : PackageSource → B) e : keeps f (raise (A:=A) e).
Proof. by intros s. Qed.

Lemma keeps_gets {A B} (f : PackageSource → B) (g : PackageSource → A) :
  keeps f (gets g).
Proof. by intros s. Qed.

Lemma keeps_or_raise {A B} (f : PackageSource → B) (o : option A) e :
  keeps f (or_raise o e).
Proof. intros s. by destruct o. Qed.

Lemma keeps_modify {B} (f : PackageSource → B) g :
  (∀ s, f (g s) = f s) → keeps f (modify g).
Proof. intros H s. apply H. Qed.

Lemma keeps_bind {A B C} (f : PackageSource → C) (m : M A) (k : A → M B) :
  keeps f m → (∀ a, keeps f (k a)) → keeps f (bind m k).
Proof.
  intros Hm Hk s. rewrite final_bind. specialize (Hm s).
  destruct (m s) as [a s'|e s']; simpl in Hm; [|done].
  by rewrite Hk.
Qed.

Lemma keeps_for_each {A B} (f : PackageSource → B) (xs : list A) body :
  (∀ x, keeps f (body x)) → keeps f (for_each xs body).
Proof.
  intros H. induction xs as [|x xs IH]; simpl.
  - apply keeps_ret.
  - apply keeps_bind; auto.
Qed.

Lemma keeps_collect {A B C} (f : PackageSource → C) (xs : list A) (body : A → M B) :
  (∀ x, keeps f (body x)) → keeps f (collect xs body).
Proof.
  intros H. induction xs as [|x xs IH]; simpl.
  - apply keeps_ret.
  - apply keeps_bind; [auto|]. intros b.
    apply keeps_bind; [auto|]. intros bs. apply keeps_ret.
Qed.

Lemma keeps_Dependency_init {B} (f : PackageSource → B) name constraint :
  (∀ g s, f (set_next_oid g s) = f s) →
  keeps f (Dependency_init name constraint).
Proof.
  intros H. unfold Dependency_init.
  repeat first [apply keeps_bind | intro | apply keeps_or_raise | apply keeps_gets
               | apply keeps_ret | by apply keeps_modify].
Qed.

Lemma keeps_dependencies_of {B} (f : PackageSource → B) deps :
  (∀ g s, f (set_next_oid g s) = f s) →
  keeps f (dependencies_of deps).
Proof.
  intros H. unfold dependencies_of. apply keeps_collect. intros dep.
  apply keeps_bind; [apply keeps_or_raise|]. intros req.
  by apply keeps_Dependency_init.
Qed.

Lemma keeps_add {B} (f : PackageSource → B) name version deps :
  (∀ g s, f (set_next_oid g s) = f s) →
  (∀ g s, f (set_packages g s) = f s) →
  keeps f (add name version deps).
Proof.
  intros Hoid Hpk. unfold add.
  apply keeps_bind; [apply keeps_or_raise|]. intros v.
  apply keeps_bind; [by apply keeps_modify|]. intros _.
  apply keeps_bind; [apply keeps_gets|]. intros recorded.
  apply keeps_bind.
  { destruct (already_exists recorded deps); [apply keeps_raise|apply keeps_ret]. }
  intros _. destruct deps as [deps|].
  - apply keeps_bind; [by apply keeps_dependencies_of|]. intros ds.
    by apply keeps_modify.
  - by apply keeps_modify.
Qed.

Lemma add_keeps_asked name version deps : keeps asked (add name version deps).
Proof. apply keeps_add; by intros g []. Qed.

Lemma add_keeps_root_dependencies name version deps :
  keeps _root_dependencies (add name version deps).
Proof. apply keeps_add; by intros g []. Qed.

(** ** The discovery call *)

Lemma discover_asked spec s : asked (final (discover spec s)) = asked s ++ [spec].
Proof.
  unfold discover, bind, gets, modify, or_raise. simpl.
  destruct (discover_dependencies_and_versions _ _ _ _ _); by destruct s.
Qed.

(** A requirement string that parses costs one discovery call, however
    [discover_and_add] ends; one that does not parse costs none. *)
Lemma discover_and_add_asked spec s req :
  Requirement_parse spec = Some req →
  asked (final (discover_and_add spec s)) = asked s ++ [spec].
Proof.
  intros Hreq. unfold discover_and_add. rewrite Hreq. simpl.
  rewrite final_bind. simpl. rewrite final_bind.
  pose proof (discover_asked spec s) as Hd.
  destruct (discover spec s) as [d s1|e s1]; simpl in Hd; [|done].
  rewrite <- Hd. clear Hd.
  assert (keeps asked (for_each (Discovery.available d)
            (λ version, add (Requirement.key req) version None) ;;
          add (Requirement.key req) (Discovery.version d)
            (Some (Discovery.requires d)))) as Hk.
  { apply keeps_bind; [apply keeps_for_each|]; intros; apply add_keeps_asked. }
  apply Hk.
Qed.

Lemma discover_and_add_unparsed spec s :
  Requirement_parse spec = None →
  discover_and_add spec s = Raise (RequirementParseError spec) s.
Proof. intros Hreq. unfold discover_and_add. by rewrite Hreq. Qed.

(** ** The dictionary of packages *)

Lemma versions_of_ensure name name'
    (packages : gmap string (gmap Version (option (list (Dependency.t Version))))) :
  versions_of (ensure name packages) name' = versions_of packages name'.
Proof.
  unfold versions_of, ensure. destruct (packages !! name) eqn:Hn; [done|].
  destruct (decide (name = name')) as [<-|Hne].
  - by rewrite lookup_insert_eq, Hn.
  - by rewrite lookup_insert_ne.
Qed.

Lemma put_ensure name v entry
    (packages : gmap string (gmap Version (option (list (Dependency.t Version))))) :
  put name v entry (ensure name packages) = put name v entry packages.
Proof.
  unfold put. rewrite versions_of_ensure. unfold ensure.
  destruct (packages !! name); [done|]. apply insert_insert_eq.
Qed.

Lemma ensure_known name
    (packages : gmap string (gmap Version (option (list (Dependency.t Version))))) :
  is_Some (packages !! name) → ensure name packages = packages.
Proof. intros [m Hm]. unfold ensure. by rewrite Hm. Qed.

Lemma versions_of_put name v entry name' v'
    (packages : gmap string (gmap Version (option (list (Dependency.t Version))))) :
  versions_of (put name v entry packages) name' !! v' =
  if decide (name = name' ∧ v = v') then Some entry
  else versions_of packages name' !! v'.
Proof.
  unfold put, versions_of at 1.
  destruct (decide (name = name')) as [<-|Hne].
  - rewrite lookup_insert_eq. simpl.
    destruct (decide (v = v')) as [<-|Hv].
    + rewrite lookup_insert_eq. by rewrite decide_True.
    + rewrite lookup_insert_ne by done. rewrite decide_False; [done|by intros [_ ?]].
  - rewrite lookup_insert_ne by done. rewrite decide_False; [done|by intros [? _]].
Qed.

Lemma put_known name v entry name'
    (packages : gmap string (gmap Version (option (list (Dependency.t Version))))) :
  is_Some (put name v entry packages !! name') ↔
  name = name' ∨ is_Some (packages !! name').
Proof.
  unfold put. destruct (decide (name = name')) as [<-|Hne].
  - rewrite lookup_insert_eq. split; [by left|eauto].
  - rewrite lookup_insert_ne by done. split; [by right|by intros [?|?]].
Qed.

Lemma versions_of_known name v entry
    (packages : gmap string (gmap Version (option (list (Dependency.t Version))))) :
  versions_of packages name !! v = Some entry → is_Some (packages !! name).
Proof.
  unfold versions_of. destruct (packages !! name); [eauto|]. simpl.
  by rewrite (lookup_empty (M:=gmap Version)).
Qed.

Lemma set_packages_twice f g s :
  set_packages f (set_packages g s) = set_packages (f ∘ g) s.
Proof. by destruct s. Qed.

(** ** What [add] does *)

Lemma dependencies_of_keeps_packages deps : keeps _packages (dependencies_of deps).
Proof. apply keeps_dependencies_of. by intros g []. Qed.

(** [add], branch by branch. *)
Lemma add_unfold name version deps s :
  add name version deps s =
  match Version_parse version with
  | None => Raise (ParseVersionError version) s
  | Some v =>
      let s1 := set_packages (ensure name) s in
      if already_exists (versions_of (_packages s) name !! v) deps
      then Raise (ValueError name v) s1
      else match deps with
           | None => Return tt (set_packages (put name v None) s)
           | Some ds =>
               match dependencies_of ds s1 with
               | Return dependencies s2 =>
                   Return tt (set_packages (put name v (Some dependencies)) s2)
               | Raise e s2 => Raise e s2
               end
           end
  end.
Proof.
  unfold add. destruct (Version_parse version) as [v|]; [|done].
  unfold bind at 1. simpl. unfold bind at 1. simpl. unfold bind at 1. simpl.
  rewrite versions_of_ensure.
  unfold bind at 1.
  destruct (already_exists _ deps); simpl; [done|].
  destruct deps as [ds|].
  - unfold bind. destruct (dependencies_of ds _); done.
  - unfold modify. rewrite set_packages_twice. destruct s; simpl.
    f_equal. unfold set_packages; simpl. f_equal. apply put_ensure.
Qed.

Lemma already_exists_spec {A B} (recorded : option (option A)) (deps : option B) :
  already_exists recorded deps = true ↔
  ∃ entry ds, recorded = Some (Some entry) ∧ deps = Some ds.
Proof.
  unfold already_exists. destruct recorded as [[entry|]|], deps as [ds|]; simpl;
    split; try done; try (intros (?&?&?&?); done).
  intros _. eauto.
Qed.

Lemma already_exists_None {A B} (recorded : option (option A)) :
  already_exists recorded (None : option B) = false.
Proof. by destruct recorded as [[?|]|]. Qed.

(** Registering a placeholder goes through whatever is recorded. *)
Lemma add_placeholder name version v s :
  Version_parse version = Some v →
  add name version None s = Return tt (set_packages (put name v None) s).
Proof. intros Hv. by rewrite add_unfold, Hv, already_exists_None. Qed.

(** The loop over the requirements raises parse errors only. *)
Lemma Dependency_init_raises name constraint s e s' :
  Dependency_init name constraint s = Raise e s' →
  e = ParseConstraintError (or_star constraint).
Proof.
  unfold Dependency_init, bind, or_raise.
  destruct (parse_constraint _); simpl; [done|]. by intros [= <- _].
Qed.

Lemma dependencies_of_raises deps s e s' :
  dependencies_of deps s = Raise e s' →
  (∃ text, e = RequirementParseError text) ∨ (∃ text, e = ParseConstraintError text).
Proof.
  unfold dependencies_of. revert s.
  induction deps as [|dep deps IH]; intros s; simpl; [done|].
  unfold bind at 1. unfold bind at 1.
  destruct (Requirement_parse dep) as [req|]; simpl.
  - destruct (Dependency_init _ _ s) as [d s1|e1 s1] eqn:Hd.
    + unfold bind at 1.
      destruct (collect deps _ s1) as [ds s2|e2 s2] eqn:Hc; simpl; [done|].
      intros [= <- <-]. by apply (IH s1).
    + intros [= <- <-]. right. eexists. by eapply Dependency_init_raises.
  - intros [= <- <-]. left. eauto.
Qed.

Lemma Dependency_init_returns name constraint s :
  is_Some (parse_constraint (or_star constraint)) →
  ∃ parsed, parse_constraint (or_star constraint) = Some parsed ∧
    Dependency_init name constraint s =
    Return (Dependency.mk (next_oid s) name parsed constraint) (set_next_oid S s).
Proof.
  intros [parsed Hp]. exists parsed. split; [done|].
  unfold Dependency_init. by rewrite Hp.
Qed.

Lemma dependencies_of_returns deps s :
  Forall well_formed deps →
  ∃ dependencies s', dependencies_of deps s = Return dependencies s' ∧
    length dependencies = length deps ∧ _packages s' = _packages s.
Proof.
  unfold dependencies_of. intros Hwf. revert s.
  induction Hwf as [|dep deps (req & Hreq & Hc) _ IH]; intros s; simpl.
  - by exists [], s.
  - rewrite Hreq. simpl.
    destruct (Dependency_init_returns (Requirement.key req) (specs_constraint req) s Hc)
      as (parsed & _ & Hd).
    unfold bind at 1. unfold bind at 1. simpl. rewrite Hd.
    destruct (IH (set_next_oid S s)) as (ds & s' & Hds & Hlen & Hpk).
    unfold bind at 1. rewrite Hds. simpl.
    eexists _, s'. split; [done|]. split; [simpl; by rewrite Hlen|].
    rewrite Hpk. by destruct s.
Qed.

(** ** Registration *)

(** C3, as the code has it: registering a concrete dependency list for
    a name and version that already have one recorded fails with
    [ValueError], whatever the two lists are (equal lists as well); the
    error is raised in no other case; and registering a concrete list
    of well-formed requirements over the placeholder succeeds and
    records one dependency per requirement. *)
Theorem add_duplicate_version s name version v :
  Version_parse version = Some v →
  (∀ recorded deps,
     versions_of (_packages s) name !! v = Some (Some recorded) →
     add name version (Some deps) s = Raise (ValueError name v) s) ∧
  (∀ deps n x s',
     add name version deps s = Raise (ValueError n x) s' →
     n = name ∧ x = v ∧
     ∃ recorded ds, deps = Some ds ∧
       versions_of (_packages s) name !! v = Some (Some recorded)) ∧
  (∀ deps,
     versions_of (_packages s) name !! v = Some None →
     Forall well_formed deps →
     ∃ dependencies s',
       add name version (Some deps) s = Return tt s' ∧
       versions_of (_packages s') name !! v = Some (Some dependencies) ∧
       length dependencies = length deps).
Proof.
  intros Hv. split; [|split].
  - intros recorded deps Hrec. rewrite add_unfold, Hv, Hrec. simpl.
    f_equal. destruct s; unfold set_packages; simpl. f_equal.
    apply ensure_known. by eapply versions_of_known.
  - intros deps n x s'. rewrite add_unfold, Hv. simpl.
    destruct (already_exists _ deps) eqn:Hex.
    + intros [= <- <- _]. apply already_exists_spec in Hex as (rec & ds & ? & ?).
      repeat split; eauto.
    + destruct deps as [ds|]; [|done].
      destruct (dependencies_of ds _) as [? ?|e s2] eqn:Hd; [done|].
      intros [= -> _]. apply dependencies_of_raises in Hd as [[? ?]|[? ?]]; done.
  - intros deps Hrec Hwf. rewrite add_unfold, Hv, Hrec. simpl.
    destruct (dependencies_of_returns deps (set_packages (ensure name) s) Hwf)
      as (ds & s2 & Hds & Hlen & _).
    rewrite Hds. eexists ds, _. split; [done|]. split; [|done].
    destruct s2; simpl. rewrite versions_of_put. by rewrite decide_True.
Qed.

(** An [add] leaves the entries of other names and versions alone,
    however it ends. *)
Lemma add_lookup_other name version deps s name' v' :
  (∀ v, Version_parse version = Some v → name = name' → v ≠ v') →
  versions_of (_packages (final (add name version deps s))) name' !! v' =
  versions_of (_packages s) name' !! v'.
Proof.
  intros Hother. rewrite add_unfold.
  destruct (Version_parse version) as [v|]; [|done]. simpl.
  assert (∀ entry s0, _packages s0 = ensure name (_packages s) ∨ _packages s0 = _packages s →
    versions_of (_packages (set_packages (put name v entry) s0)) name' !! v' =
    versions_of (_packages s) name' !! v') as Hput.
  { intros entry s0 Hs0. destruct s0; simpl in *. rewrite versions_of_put.
    rewrite decide_False by (intros [? ?]; by eapply Hother).
    destruct Hs0 as [->| ->]; [by rewrite versions_of_ensure|done]. }
  destruct (already_exists _ deps).
  - destruct s; simpl. by rewrite versions_of_ensure.
  - destruct deps as [ds|].
    + pose proof (dependencies_of_keeps_packages ds (set_packages (ensure name) s)) as Hk.
      destruct (dependencies_of ds _) as [dependencies s2|e s2]; simpl in *.
      * apply Hput. left. rewrite Hk. by destruct s.
      * rewrite Hk. destruct s; simpl. by rewrite versions_of_ensure.
    + apply Hput. by right.
Qed.

(** The first loop of [discover_and_add]: every available version is
    recorded anew as a placeholder. *)
Lemma for_each_add_placeholder name versions s :
  Forall (λ x, is_Some (Version_parse x)) versions →
  ∃ s', for_each versions (λ version, add name version None) s = Return tt s' ∧
    (∀ v, versions_of (_packages s) name !! v = Some None ∨
          (∃ x, x ∈ versions ∧ Version_parse x = Some v) →
          versions_of (_packages s') name !! v = Some None).
Proof.
  intros Hp. revert s.
  induction Hp as [|x versions [v0 Hv0] _ IH]; intros s; simpl.
  - exists s. split; [done|]. intros v [Hv|(x & Hx & _)]; [done|].
    by apply elem_of_nil in Hx.
  - unfold bind at 1. rewrite (add_placeholder _ _ v0) by done.
    destruct (IH (set_packages (put name v0 None) s)) as (s' & Hrun & Hnone).
    exists s'. split; [done|]. intros v Hv. apply Hnone.
    assert (versions_of (_packages (set_packages (put name v0 None) s)) name !! v =
            if decide (v0 = v) then Some None else versions_of (_packages s) name !! v)
      as Hlook.
    { destruct s; simpl. rewrite versions_of_put.
      destruct (decide (v0 = v)) as [->|Hne].
      - by rewrite decide_True.
      - rewrite decide_False; [done|]. by intros [_ ?]. }
    rewrite Hlook. destruct (decide (v0 = v)) as [->|Hne]; [by left|].
    destruct Hv as [Hv|(y & Hy & Hyv)]; [by left|].
    apply elem_of_cons in Hy as [->|Hy]; [congruence|]. right. eauto.
Qed.

Lemma discover_returns spec s d :
  discover_dependencies_and_versions (asked s) spec
    (index_url s) (extra_index_url s) (cache_dir s) = Some d →
  discover spec s = Return d (set_asked (λ l, l ++ [spec]) s).
Proof.
  intros Hd. unfold discover, bind, gets, modify, or_raise. simpl.
  destruct s; simpl in *. by rewrite Hd.
Qed.

Lemma discover_fails spec s :
  discover_dependencies_and_versions (asked s) spec
    (index_url s) (extra_index_url s) (cache_dir s) = None →
  discover spec s = Raise (DiscoveryError spec) (set_asked (λ l, l ++ [spec]) s).
Proof.
  intros Hd. unfold discover, bind, gets, modify, or_raise. simpl.
  destruct s; simpl in *. by rewrite Hd.
Qed.

Lemma discover_and_add_parsed spec req s :
  Requirement_parse spec = Some req →
  discover_and_add spec s =
  (do to_create <- discover spec;
   for_each (Discovery.available to_create) (λ version,
     add (Requirement.key req) version None) ;;
   add (Requirement.key req) (Discovery.version to_create)
       (Some (Discovery.requires to_create))) s.
Proof. intros Hreq. unfold discover_and_add. by rewrite Hreq. Qed.

(** C5: registering the placeholder over a recorded dependency list
    succeeds and leaves the placeholder; and a discovery, which
    registers every available version that way, resets the recorded
    list of each available version other than the one it was asked
    about. *)
Theorem add_placeholder_overwrites :
  (∀ s name version v deps,
     Version_parse version = Some v →
     versions_of (_packages s) name !! v = Some (Some deps) →
     ∃ s', add name version None s = Return tt s' ∧
           versions_of (_packages s') name !! v = Some None) ∧
  (∀ s spec req d x v deps,
     Requirement_parse spec = Some req →
     discover_dependencies_and_versions (asked s) spec
       (index_url s) (extra_index_url s) (cache_dir s) = Some d →
     Forall (λ y, is_Some (Version_parse y)) (Discovery.available d) →
     x ∈ Discovery.available d →
     Version_parse x = Some v →
     Version_parse (Discovery.version d) ≠ Some v →
     versions_of (_packages s) (Requirement.key req) !! v = Some (Some deps) →
     versions_of (_packages (final (discover_and_add spec s)))
       (Requirement.key req) !! v = Some None).
Proof.
  split.
  - intros s name version v deps Hv _. rewrite (add_placeholder _ _ v) by done.
    eexists. split; [done|]. destruct s; simpl.
    rewrite versions_of_put. by rewrite decide_True.
  - intros s spec req d x v deps Hreq Hd Hall Hx Hv Hother _.
    rewrite (discover_and_add_parsed _ req) by done.
    rewrite (bind_Return _ _ _ _ _ (discover_returns _ _ _ Hd)).
    destruct (for_each_add_placeholder (Requirement.key req) (Discovery.available d)
                (set_asked (λ l, l ++ [spec]) s) Hall) as (s2 & Hrun & Hnone).
    rewrite (bind_Return _ _ _ _ _ Hrun).
    rewrite add_lookup_other.
    + apply Hnone. right. eauto.
    + intros w Hw _ ->. done.
Qed.

(** ** Dependencies of a version *)

Lemma lookup_entry_unfold package v s :
  lookup_entry package v s =
  match versions_of (_packages s) package !! v with
  | Some entry => Return entry s
  | None => Raise KeyError s
  end.
Proof.
  unfold lookup_entry, versions_of, bind, gets. simpl.
  destruct (_packages s !! package) as [known|]; simpl.
  - by destruct (known !! v).
  - by rewrite (lookup_empty (M:=gmap Version)).
Qed.

Lemma dependencies_for_other package v s :
  package ≠ root →
  dependencies_for package v s =
  (do entry <- lookup_entry package v;
   match entry with
   | None => discover_and_add (package +:+ "==" +:+ Version_str v)
   | Some _ => ret tt
   end ;;
   lookup_entry package v) s.
Proof.
  intros Hne. unfold dependencies_for.
  destruct (String.eqb package root) eqn:Heq; [|done].
  by apply String.eqb_eq in Heq.
Qed.


(** C8: for a package other than the root that is not a key of the
    dictionary, [dependencies_for] raises [KeyError] and leaves the
    adapter as it was: no discovery is started.  Any other outcome
    means the package was registered. *)
Theorem dependencies_for_unregistered s package v :
  package ≠ root →
  (_packages s !! package = None →
   dependencies_for package v s = Raise KeyError s) ∧
  (dependencies_for package v s ≠ Raise KeyError s →
   is_Some (_packages s !! package)).
Proof.
  intros Hne.
  assert (_packages s !! package = None →
          dependencies_for package v s = Raise KeyError s) as H.
  { intros Hnone. rewrite dependencies_for_other by done.
    unfold bind. rewrite lookup_entry_unfold. unfold versions_of.
    rewrite Hnone. simpl. by rewrite (lookup_empty (M:=gmap Version)). }
  split; [done|]. intros Hout.
  destruct (_packages s !! package) eqn:Hp; [eauto|]. by destruct Hout; apply H.
Qed.

(** ** Versions of a package *)

Lemma _versions_for_known package constraint s :
  is_Some (_packages s !! package) →
  _versions_for package constraint s =
  Return (listing package constraint (_packages s)) s.
Proof.
  intros Hk. unfold _versions_for, bind, gets, ret. simpl.
  by rewrite bool_decide_eq_true_2.
Qed.

Lemma _versions_for_unknown package constraint s :
  _packages s !! package = None →
  _versions_for package constraint s =
  match discover_and_add (discovery_spec package constraint) s with
  | Return _ s' => Return (listing package constraint (_packages s')) s'
  | Raise e s' => Raise e s'
  end.
Proof.
  intros Hk. unfold _versions_for, bind, gets, ret. simpl.
  rewrite bool_decide_eq_false_2; [done|]. rewrite Hk. by intros [? ?].
Qed.

(** C4, as the code has it: for a package that is not a key of the
    dictionary, [_versions_for] parses the requirement string before it
    asks the index.  When the string parses, exactly one discovery
    call is made, for that string, however the method ends; when it
    does not parse, no call is made and the parse error is raised with
    the adapter as it was; when the discovery returns and the package
    is still not a key, the answer is the empty list; and when the
    discovery raises, the query raises the same error. *)
Theorem versions_for_unknown_package s package constraint :
  _packages s !! package = None →
  (∀ req, Requirement_parse (discovery_spec package constraint) = Some req →
     asked (final (_versions_for package constraint s)) =
       asked s ++ [discovery_spec package constraint]) ∧
  (Requirement_parse (discovery_spec package constraint) = None →
     _versions_for package constraint s =
       Raise (RequirementParseError (discovery_spec package constraint)) s) ∧
  (∀ s', discover_and_add (discovery_spec package constraint) s = Return tt s' →
         _packages s' !! package = None →
         _versions_for package constraint s = Return [] s') ∧
  (∀ e s', discover_and_add (discovery_spec package constraint) s = Raise e s' →
           _versions_for package constraint s = Raise e s').
Proof.
  intros Hk. rewrite _versions_for_unknown by done. split; [|split; [|split]].
  - intros req Hreq. rewrite <- (discover_and_add_asked _ s req Hreq).
    by destruct (discover_and_add _ s).
  - intros Hreq. by rewrite discover_and_add_unparsed.
  - intros s' -> Hk'. unfold listing. by rewrite Hk'.
  - by intros e s' ->.
Qed.

(** ** Sorting *)

Section Sorting.
Context `{!VersionOrder E}.

Lemma Version_lt_asym (a b : Version) :
  Version_lt a b = true → Version_lt b a = false.
Proof.
  intros Hab. destruct (Version_lt b a) eqn:Hba; [|done].
  pose proof (Version_lt_trans _ _ _ Hab Hba) as Haa.
  by rewrite Version_lt_irrefl in Haa.
Qed.

#[local] Instance not_below_total : Total not_below.
Proof.
  intros a b. unfold not_below.
  destruct (Version_lt a b) eqn:Hab; [|by left].
  right. by apply Version_lt_asym.
Qed.

#[local] Instance not_below_trans : Transitive not_below.
Proof.
  intros a b c. unfold not_below. intros Hab Hbc.
  destruct (Version_lt a c) eqn:Hac; [|done].
  destruct (Version_lt_total a b) as [H|[->|H]]; [congruence|congruence|].
  pose proof (Version_lt_trans _ _ _ H Hac). congruence.
Qed.

Lemma not_below_strict (a b : Version) :
  not_below a b → a ≠ b → Version_lt b a = true.
Proof.
  unfold not_below. intros Hab Hne.
  destruct (Version_lt_total a b) as [H|[->|H]]; [congruence|done|done].
Qed.

(** Sorting a list without repetition leaves it strictly descending. *)
Lemma sorted_reverse_descending (versions : list Version) :
  NoDup versions →
  StronglySorted (λ a b, Version_lt b a = true) (sorted_reverse versions).
Proof.
  intros Hnd. unfold sorted_reverse.
  pose proof (StronglySorted_merge_sort not_below versions) as Hs.
  assert (NoDup (merge_sort not_below versions)) as Hnd'.
  { by rewrite merge_sort_Permutation. }
  induction Hs as [|a l Hl IH Hall]; [constructor|].
  apply NoDup_cons in Hnd' as [Ha Hnd']. constructor; [by apply IH|].
  apply Forall_forall. intros b Hb. apply not_below_strict.
  - by eapply Forall_forall in Hall.
  - by intros ->.
Qed.

Lemma elem_of_sorted_reverse (versions : list Version) v :
  v ∈ sorted_reverse versions ↔ v ∈ versions.
Proof. unfold sorted_reverse. by rewrite merge_sort_Permutation. Qed.

Lemma accepts_spec constraint v :
  accepts constraint v = true ↔
  constraint = None ∨
  ∃ c, constraint = Some c ∧
       allows_any c (Range.mk (Some v) (Some v) true true None) = true.
Proof.
  unfold accepts. destruct constraint as [c|]; split; eauto.
  - by intros [?|(c' & [= <-] & ?)].
Qed.

Lemma listing_sorted package constraint
    (packages : gmap string (gmap Version (option (list (Dependency.t Version))))) :
  StronglySorted (λ a b, Version_lt b a = true) (listing package constraint packages).
Proof.
  unfold listing. destruct (packages !! package) as [known|]; [|constructor].
  apply sorted_reverse_descending, NoDup_filter, NoDup_fst_map_to_list.
Qed.

Lemma elem_of_listing package constraint v
    (packages : gmap string (gmap Version (option (list (Dependency.t Version))))) :
  v ∈ listing package constraint packages ↔
  is_Some (versions_of packages package !! v) ∧ accepts constraint v = true.
Proof.
  unfold listing, versions_of.
  destruct (packages !! package) as [known|]; simpl.
  - rewrite elem_of_sorted_reverse, list_elem_of_filter, list_elem_of_fmap.
    split.
    + intros [Hadm ([w entry] & -> & Hin)]. apply elem_of_map_to_list in Hin.
      simpl. eauto.
    + intros [[entry Hentry] Hadm]. split; [done|].
      exists (v, entry). split; [done|]. by apply elem_of_map_to_list.
  - rewrite (lookup_empty (M:=gmap Version)). split.
    + intros H. by apply elem_of_nil in H.
    + by intros [[? ?] _].
Qed.

(** C1: when [_versions_for] returns, its answer is strictly
    descending and holds exactly the versions recorded for the package
    for which the constraint is absent or allows the range [[v, v]]
    with both ends included.  It returns, without touching the
    adapter, for a package that is a key of the dictionary; for any
    other package it ends the way the discovery it starts ends. *)
Theorem versions_for_filter_sorted s package constraint :
  (∀ vs s', _versions_for package constraint s = Return vs s' →
     StronglySorted (λ a b, Version_lt b a = true) vs ∧
     ∀ v, v ∈ vs ↔
       is_Some (versions_of (_packages s') package !! v) ∧
       (constraint = None ∨
        ∃ c, constraint = Some c ∧
             allows_any c (Range.mk (Some v) (Some v) true true None) = true)) ∧
  (is_Some (_packages s !! package) →
     ∃ vs, _versions_for package constraint s = Return vs s) ∧
  (_packages s !! package = None →
     match discover_and_add (discovery_spec package constraint) s with
     | Return _ s' => ∃ vs, _versions_for package constraint s = Return vs s'
     | Raise e s' => _versions_for package constraint s = Raise e s'
     end).
Proof.
  split; [|split].
  - intros vs s' Hrun.
    assert (vs = listing package constraint (_packages s')) as ->.
    { destruct (_packages s !! package) as [known|] eqn:Hk.
      - rewrite _versions_for_known in Hrun by eauto. by injection Hrun as <- <-.
      - rewrite _versions_for_unknown in Hrun by done.
        destruct (discover_and_add _ s); [|done]. by injection Hrun as <- <-. }
    split; [apply listing_sorted|]. intros v.
    by rewrite elem_of_listing, accepts_spec.
  - intros Hk. rewrite _versions_for_known by done. eauto.
  - intros Hk. rewrite _versions_for_unknown by done.
    destruct (discover_and_add _ s); eauto.
Qed.

End Sorting.

(** ** Identity of dependencies *)

(** Two dependencies built one after the other are different objects,
    whatever their names and constraints; [==] tells them apart. *)
Lemma Dependency_init_distinct name name' constraint constraint' s d s' d' s'' :
  Dependency_init name constraint s = Return d s' →
  Dependency_init name' constraint' s' = Return d' s'' →
  Dependency.eq d d' = false.
Proof.
  unfold Dependency_init, bind, or_raise, gets, modify, ret.
  destruct (parse_constraint (or_star constraint)); simpl; [|done].
  intros [= <- <-].
  destruct (parse_constraint (or_star constraint')); simpl; [|done].
  intros [= <- _]. unfold Dependency.eq. simpl.
  destruct s; simpl. apply Nat.eqb_neq. lia.
Qed.

(** ** Conversion *)

Lemma to_Range_same_bounds label (range : VersionRange.t Version) :
  same_bounds range (to_Range label range).
Proof. by repeat split. Qed.

(** C6: the constraint made of a dependency carries the dependency's
    name; for a single range it is a [Range] with the same bounds and
    inclusion flags; for a union it is [Union.of] applied to one
    [Range] per member, in order, each with the bounds and flags of its
    member; and it depends on the name, the parsed constraint and the
    constraint text only. *)
Theorem convert_dependency_keeps_bounds (dependency : Dependency.t Version) :
  Constraint.package (convert_dependency dependency) = Dependency.name dependency ∧
  (∀ range, Dependency.constraint dependency = IsVersionRange range →
     ∃ r, Constraint.constraint (convert_dependency dependency) = inl r ∧
          same_bounds range r) ∧
  (∀ ranges, Dependency.constraint dependency = IsVersionUnion ranges →
     ∃ rs, Constraint.constraint (convert_dependency dependency) = Union_of rs ∧
           Forall2 same_bounds ranges rs) ∧
  (∀ other : Dependency.t Version,
     Dependency.name other = Dependency.name dependency →
     Dependency.constraint other = Dependency.constraint dependency →
     Dependency.pretty_constraint other = Dependency.pretty_constraint dependency →
     convert_dependency other = convert_dependency dependency).
Proof.
  split; [done|]. split; [|split].
  - intros range Hc. unfold convert_dependency. rewrite Hc. simpl.
    eexists. split; [done|]. apply to_Range_same_bounds.
  - intros ranges Hc. unfold convert_dependency. rewrite Hc. simpl.
    eexists. split; [done|]. clear Hc.
    induction ranges as [|range ranges IH]; simpl; constructor;
      [apply to_Range_same_bounds|apply IH].
  - intros other Hn Hc Hp. unfold convert_dependency. by rewrite Hn, Hc, Hp.
Qed.

End Facts.

(** * The requirement grammar *)

Section ParserFacts.
Context {V : Type} (parse : string → option V) (lt : V → V → bool).
Hypothesis lt_irrefl : ∀ v, lt v v = false.
Hypothesis lt_trans : ∀ a b c, lt a b = true → lt b c = true → lt a c = true.
Hypothesis lt_total : ∀ a b, lt a b = true ∨ a = b ∨ lt b a = true.








(** ** What the parsed constraint allows *)












Lemma clause_range_well_bounded (clause : Spec.comparator * V) r :
  Spec.clause_range clause = Some r → Spec.well_bounded lt r.
Proof.
  destruct clause as [[] x]; simpl; intros [= <-]; unfold Spec.well_bounded;
    simpl; try done.
  split; [apply lt_irrefl|]. intros _. by left.
Qed.







End ParserFacts.


(** * Requirements as dependencies *)

Section RequirementSteps.
Context `{E : Collaborators}.

Lemma discover_and_add_keeps_root_dependencies spec :
  keeps _root_dependencies (discover_and_add spec).
Proof.
  unfold discover_and_add.
  apply keeps_bind; [apply keeps_or_raise|]. intros req.
  apply keeps_bind.
  { unfold discover. apply keeps_bind; [apply keeps_gets|]. intros s0.
    apply keeps_bind; [by apply keeps_modify; intros []|]. intros _.
    apply keeps_or_raise. }
  intros d. apply keeps_bind; [apply keeps_for_each|]; intros;
    apply add_keeps_root_dependencies.
Qed.

Lemma root_dep_parsed package req s :
  Requirement_parse package = Some req →
  root_dep package s =
  (do dep <- Dependency_init (Requirement.key req) (specs_constraint req);
   modify (set_root_dependencies (λ l, l ++ [dep])) ;;
   discover_and_add (Requirement.str req)) s.
Proof. intros Hreq. unfold root_dep. by rewrite Hreq. Qed.

End RequirementSteps.

Section RequirementFacts.
Context `{E : Collaborators} `{!VersionOrder E}.

(** The order of the versions is that of the same collaborators with
    the parser of the description. *)
Lemma described_order : VersionOrder (described E).
Proof.
  split; simpl.
  - apply Version_lt_irrefl.
  - apply Version_lt_trans.
  - apply Version_lt_total.
Qed.


End RequirementFacts.

(** * The root and its dependencies *)

Section RootFacts.
Context `{E : Collaborators}.

Implicit Types (s : PackageSource) (package : string) (v : Version).

Lemma root_dependencies_held s v :
  dependencies_for root v s = Return (Some (_root_dependencies s)) s.
Proof. unfold dependencies_for. by rewrite String.eqb_refl. Qed.

Lemma versions_for_keeps_root_dependencies package constraint :
  keeps _root_dependencies (_versions_for package constraint).
Proof.
  unfold _versions_for.
  apply keeps_bind; [apply keeps_gets|]. intros packages.
  apply keeps_bind.
  { destruct (bool_decide _);
      [apply keeps_ret|apply discover_and_add_keeps_root_dependencies]. }
  intros _. apply keeps_bind; [apply keeps_gets|]. intros. apply keeps_ret.
Qed.

Lemma lookup_entry_keeps_root_dependencies package v :
  keeps _root_dependencies (lookup_entry package v).
Proof.
  unfold lookup_entry. apply keeps_bind; [apply keeps_gets|]. intros packages.
  destruct (packages !! package); [apply keeps_or_raise|apply keeps_raise].
Qed.

Lemma dependencies_for_keeps_root_dependencies package v :
  keeps _root_dependencies (dependencies_for package v).
Proof.
  unfold dependencies_for. destruct (String.eqb package root).
  - apply keeps_bind; [apply keeps_gets|]. intros. apply keeps_ret.
  - apply keeps_bind; [apply lookup_entry_keeps_root_dependencies|]. intros entry.
    apply keeps_bind; [|intros; apply lookup_entry_keeps_root_dependencies].
    destruct entry;
      [apply keeps_ret|apply discover_and_add_keeps_root_dependencies].
Qed.

(** One declaration has appended the dependency it declares, or has
    raised and left the list as it was. *)
Lemma root_dep_final package s :
  (∃ dep, declares package dep ∧
          _root_dependencies (final (root_dep package s)) =
            _root_dependencies s ++ [dep]) ∨
  (_root_dependencies (final (root_dep package s)) = _root_dependencies s ∧
   returned (root_dep package s) = false).
Proof.
  destruct (Requirement_parse package) as [req|] eqn:Hreq;
    [|right; unfold root_dep; by rewrite Hreq].
  rewrite (root_dep_parsed _ req) by done.
  destruct (parse_constraint (or_star (specs_constraint req))) as [parsed|] eqn:Hparsed;
    [|right; unfold Dependency_init, bind; by rewrite Hparsed].
  assert (Dependency_init (Requirement.key req) (specs_constraint req) s =
          Return (Dependency.mk (next_oid s) (Requirement.key req) parsed
                    (specs_constraint req)) (set_next_oid S s)) as Hinit.
  { unfold Dependency_init. by rewrite Hparsed. }
  left.
  exists (Dependency.mk (next_oid s) (Requirement.key req) parsed
            (specs_constraint req)).
  split; [by exists req|].
  rewrite (bind_Return _ _ _ _ _ Hinit). rewrite final_bind. simpl.
  rewrite discover_and_add_keeps_root_dependencies. by destruct s.
Qed.

(** Declarations made one after the other have appended their
    dependencies in that order, up to the one that raised, if any. *)
Lemma root_deps_in_order packages s :
  ∃ deps,
    _root_dependencies (final (for_each packages root_dep s)) =
      _root_dependencies s ++ deps ∧
    Forall2 declares (take (length deps) packages) deps ∧
    (returned (for_each packages root_dep s) = true →
     Forall2 declares packages deps).
Proof.
  revert s. induction packages as [|package packages IH]; intros s.
  - exists []. simpl. by rewrite app_nil_r.
  - change (for_each (package :: packages) root_dep)
      with (bind (root_dep package) (λ _, for_each packages root_dep)).
    rewrite final_bind. unfold bind at 1.
    destruct (root_dep_final package s) as [(dep & Hdep & Hone)|[Hone Hraised]];
      destruct (root_dep package s) as [[] s1|e s1]; simpl in *; try done.
    + destruct (IH s1) as (deps & Hrest & Hprefix & Hall).
      exists (dep :: deps). rewrite Hrest, Hone, <- app_assoc. simpl.
      split; [done|]. split; [by constructor|].
      intros Hreturned. constructor; [done|by apply Hall].
    + exists [dep]. split; [done|]. split; [|done].
      simpl. rewrite take_0. by repeat constructor.
    + exists []. rewrite app_nil_r. by repeat split.
Qed.

(** C7: for the root package [dependencies_for] returns the list of
    root dependencies held by the adapter and leaves the adapter as it
    was, so no discovery call was made; the dictionary of packages has
    no part in the answer.  The list held is the one built up from the
    declared root requirements: it is empty on a new adapter; each
    [root_dep] whose requirement and constraint parse appends the
    dependency of that requirement, also when the discovery then
    raises; declarations made one after the other leave their
    dependencies in the order of declaration, up to the one that
    raised, if any; and no other method changes the list. *)
Theorem dependencies_for_root s v :
  dependencies_for root v s = Return (Some (_root_dependencies s)) s ∧
  (∀ f, dependencies_for root v (set_packages f s) =
        Return (Some (_root_dependencies s)) (set_packages f s)) ∧
  (∀ cache index extra s0,
     PackageSource_init cache index extra = Some s0 →
     dependencies_for root v s0 = Return (Some []) s0) ∧
  (∀ package req parsed,
     Requirement_parse package = Some req →
     parse_constraint (or_star (specs_constraint req)) = Some parsed →
     dependencies_for root v (final (root_dep package s)) =
       Return (Some (_root_dependencies s ++
                       [Dependency.mk (next_oid s) (Requirement.key req) parsed
                          (specs_constraint req)]))
              (final (root_dep package s))) ∧
  (∀ packages,
     ∃ deps,
       dependencies_for root v (final (for_each packages root_dep s)) =
         Return (Some (_root_dependencies s ++ deps))
                (final (for_each packages root_dep s)) ∧
       Forall2 declares (take (length deps) packages) deps ∧
       (returned (for_each packages root_dep s) = true →
        Forall2 declares packages deps)) ∧
  (∀ name version deps package constraint v',
     dependencies_for root v (final (add name version deps s)) =
       Return (Some (_root_dependencies s)) (final (add name version deps s)) ∧
     dependencies_for root v (final (discover_and_add package s)) =
       Return (Some (_root_dependencies s)) (final (discover_and_add package s)) ∧
     dependencies_for root v (final (_versions_for package constraint s)) =
       Return (Some (_root_dependencies s))
              (final (_versions_for package constraint s)) ∧
     dependencies_for root v (final (dependencies_for package v' s)) =
       Return (Some (_root_dependencies s))
              (final (dependencies_for package v' s))).
Proof.
  split; [apply root_dependencies_held|].
  split.
  { intros f. rewrite root_dependencies_held. by destruct s. }
  split.
  { intros cache index extra s0 Hinit. rewrite root_dependencies_held.
    unfold PackageSource_init in Hinit.
    destruct (Version_parse "0.0.0"); simpl in Hinit; [|done].
    by injection Hinit as <-. }
  split.
  { intros package req parsed Hreq Hparsed.
    rewrite root_dependencies_held. do 2 f_equal.
    rewrite (root_dep_parsed _ req) by done.
    assert (Dependency_init (Requirement.key req) (specs_constraint req) s =
            Return (Dependency.mk (next_oid s) (Requirement.key req) parsed
                      (specs_constraint req)) (set_next_oid S s)) as Hinit.
    { unfold Dependency_init. by rewrite Hparsed. }
    rewrite (bind_Return _ _ _ _ _ Hinit). rewrite final_bind. simpl.
    rewrite discover_and_add_keeps_root_dependencies. by destruct s. }
  split.
  { intros packages.
    destruct (root_deps_in_order packages s) as (deps & Hs' & Hdeps).
    exists deps. split; [|done].
    rewrite root_dependencies_held. by rewrite Hs'. }
  intros name version deps package constraint v'.
  rewrite !root_dependencies_held.
  rewrite add_keeps_root_dependencies,
    discover_and_add_keeps_root_dependencies,
    versions_for_keeps_root_dependencies,
    dependencies_for_keeps_root_dependencies.
  done.
Qed.

End RootFacts.

(** * What every method keeps *)

Section Respects.
Context `{E : Collaborators} (R : relation PackageSource) `{!PreOrder R}.
Hypothesis R_step : ∀ s s', step s s' → R s s'.

Lemma respects_ret {A} (a : A) : respects R (ret a).
Proof. intros s. simpl. reflexivity. Qed.

Lemma respects_raise {A} e : respects R (raise (A:=A) e).
Proof. intros s. simpl. reflexivity. Qed.

Lemma respects_gets {A} (f : PackageSource → A) : respects R (gets f).
Proof. intros s. simpl. reflexivity. Qed.

Lemma respects_or_raise {A} (o : option A) e : respects R (or_raise o e).
Proof. intros s. destruct o; simpl; reflexivity. Qed.

Lemma respects_modify g : (∀ s, step s (g s)) → respects R (modify g).
Proof. intros Hg s. simpl. apply R_step, Hg. Qed.

Lemma respects_bind {A B} (m : M A) (k : A → M B) :
  respects R m → (∀ a, respects R (k a)) → respects R (bind m k).
Proof.
  intros Hm Hk s. rewrite final_bind. specialize (Hm s).
  destruct (m s) as [a s'|e s']; simpl in Hm; [|done].
  etransitivity; [exact Hm|apply Hk].
Qed.

Lemma respects_for_each {A} (xs : list A) body :
  (∀ x, respects R (body x)) → respects R (for_each xs body).
Proof.
  intros H. induction xs as [|x xs IH]; simpl.
  - apply respects_ret.
  - apply respects_bind; auto.
Qed.

Lemma respects_collect {A B} (xs : list A) (body : A → M B) :
  (∀ x, respects R (body x)) → respects R (collect xs body).
Proof.
  intros H. induction xs as [|x xs IH]; simpl.
  - apply respects_ret.
  - apply respects_bind; [auto|]. intros b.
    apply respects_bind; [auto|]. intros bs. apply respects_ret.
Qed.

Lemma respects_Dependency_init name constraint :
  respects R (Dependency_init name constraint).
Proof.
  unfold Dependency_init.
  apply respects_bind; [apply respects_or_raise|]. intros parsed.
  apply respects_bind; [apply respects_gets|]. intros id.
  apply respects_bind; [|intros _; apply respects_ret].
  apply respects_modify. constructor.
Qed.

Lemma respects_dependencies_of deps : respects R (dependencies_of deps).
Proof.
  unfold dependencies_of. apply respects_collect. intros dep.
  apply respects_bind; [apply respects_or_raise|]. intros req.
  apply respects_Dependency_init.
Qed.

Lemma respects_add name version deps : respects R (add name version deps).
Proof.
  unfold add.
  apply respects_bind; [apply respects_or_raise|]. intros v.
  apply respects_bind; [apply respects_modify; constructor|]. intros _.
  apply respects_bind; [apply respects_gets|]. intros recorded.
  apply respects_bind.
  { destruct (already_exists recorded deps);
      [apply respects_raise|apply respects_ret]. }
  intros _. destruct deps as [deps|].
  - apply respects_bind; [apply respects_dependencies_of|]. intros ds.
    apply respects_modify. constructor.
  - apply respects_modify. constructor.
Qed.

Lemma respects_discover spec : respects R (discover spec).
Proof.
  unfold discover.
  apply respects_bind; [apply respects_gets|]. intros s0.
  apply respects_bind; [apply respects_modify; constructor|]. intros _.
  apply respects_or_raise.
Qed.

Lemma respects_discover_and_add spec : respects R (discover_and_add spec).
Proof.
  unfold discover_and_add.
  apply respects_bind; [apply respects_or_raise|]. intros req.
  apply respects_bind; [apply respects_discover|]. intros d.
  apply respects_bind; [apply respects_for_each|]; intros; apply respects_add.
Qed.

Lemma respects_root_dep package : respects R (root_dep package).
Proof.
  unfold root_dep.
  apply respects_bind; [apply respects_or_raise|]. intros req.
  apply respects_bind; [apply respects_Dependency_init|]. intros dep.
  apply respects_bind; [apply respects_modify; constructor|]. intros _.
  apply respects_discover_and_add.
Qed.

Lemma respects_versions_for package constraint :
  respects R (_versions_for package constraint).
Proof.
  unfold _versions_for.
  apply respects_bind; [apply respects_gets|]. intros packages.
  apply respects_bind.
  { destruct (bool_decide _); [apply respects_ret|apply respects_discover_and_add]. }
  intros _. apply respects_bind; [apply respects_gets|]. intros packages'.
  apply respects_ret.
Qed.

Lemma respects_lookup_entry package version :
  respects R (lookup_entry package version).
Proof.
  unfold lookup_entry.
  apply respects_bind; [apply respects_gets|]. intros packages.
  destruct (packages !! package); [apply respects_or_raise|apply respects_raise].
Qed.

Lemma respects_dependencies_for package version :
  respects R (dependencies_for package version).
Proof.
  unfold dependencies_for. destruct (String.eqb package root).
  - apply respects_bind; [apply respects_gets|]. intros deps. apply respects_ret.
  - apply respects_bind; [apply respects_lookup_entry|]. intros entry.
    apply respects_bind; [|intros _; apply respects_lookup_entry].
    destruct entry; [apply respects_ret|apply respects_discover_and_add].
Qed.

End Respects.

Section Invariants.
Context `{E : Collaborators}.

Implicit Types (s : PackageSource) (name package : string) (v : Version).

#[local] Instance keys_kept_preorder : PreOrder keys_kept.
Proof.
  split.
  - intros s. by split.
  - intros s1 s2 s3 [Hn12 Hv12] [Hn23 Hv23]. split; eauto.
Qed.

Lemma keys_kept_step s s' : step s s' → keys_kept s s'.
Proof.
  destruct 1 as [s name|s name version entry|s|s spec|s dep];
    try (destruct s; by split).
  - destruct s as [rv rd packages cd iu eu a n]; simpl. split; simpl.
    + intros name' Hk. unfold ensure.
      destruct (packages !! name) eqn:Hn; [done|].
      destruct (decide (name = name')) as [<-|Hne].
      * by rewrite lookup_insert_eq.
      * by rewrite lookup_insert_ne.
    + intros name' v. by rewrite versions_of_ensure.
  - destruct s as [rv rd packages cd iu eu a n]; simpl. split; simpl.
    + intros name' Hk. apply put_known. by right.
    + intros name' v Hv. rewrite versions_of_put. by case_decide.
Qed.

(** X1: No method removes a key: a package that was known stays known,
    and a version that was recorded for it stays recorded, whether the
    method returns or raises. *)
Theorem methods_keep_keys :
  (∀ name version deps, respects keys_kept (add name version deps)) ∧
  (∀ spec, respects keys_kept (discover_and_add spec)) ∧
  (∀ package, respects keys_kept (root_dep package)) ∧
  (∀ package constraint, respects keys_kept (_versions_for package constraint)) ∧
  (∀ package v, respects keys_kept (dependencies_for package v)).
Proof.
  split; [|split; [|split; [|split]]]; intros.
  - apply (respects_add keys_kept keys_kept_step).
  - apply (respects_discover_and_add keys_kept keys_kept_step).
  - apply (respects_root_dep keys_kept keys_kept_step).
  - apply (respects_versions_for keys_kept keys_kept_step).
  - apply (respects_dependencies_for keys_kept keys_kept_step).
Qed.

#[local] Instance settings_kept_preorder : PreOrder settings_kept.
Proof.
  split.
  - by intros s.
  - intros s1 s2 s3. unfold settings_kept. congruence.
Qed.

Lemma settings_kept_step s s' : step s s' → settings_kept s s'.
Proof. destruct 1; by destruct s. Qed.

(** X2: No method changes the root version or the cache directory and
    index locations given to [__init__], whether it returns or
    raises. *)
Theorem methods_keep_settings :
  (∀ name version deps, respects settings_kept (add name version deps)) ∧
  (∀ spec, respects settings_kept (discover_and_add spec)) ∧
  (∀ package, respects settings_kept (root_dep package)) ∧
  (∀ package constraint, respects settings_kept (_versions_for package constraint)) ∧
  (∀ package v, respects settings_kept (dependencies_for package v)).
Proof.
  split; [|split; [|split; [|split]]]; intros.
  - apply (respects_add settings_kept settings_kept_step).
  - apply (respects_discover_and_add settings_kept settings_kept_step).
  - apply (respects_root_dep settings_kept settings_kept_step).
  - apply (respects_versions_for settings_kept settings_kept_step).
  - apply (respects_dependencies_for settings_kept settings_kept_step).
Qed.

#[local] Instance identities_kept_preorder : PreOrder identities_kept.
Proof.
  split.
  - intros s. unfold identities_kept. lia.
  - intros s1 s2 s3. unfold identities_kept. lia.
Qed.

Lemma identities_kept_step s s' : step s s' → identities_kept s s'.
Proof. destruct 1; destruct s; unfold identities_kept; simpl; lia. Qed.

(** X3: Object identities are never handed out twice: no method lowers the
    next identity, so a dependency built after any number of method
    calls differs under [==] from one built before them, even with the
    same name and constraint. *)
Theorem later_dependency_differs :
  ((∀ name version deps, respects identities_kept (add name version deps)) ∧
   (∀ spec, respects identities_kept (discover_and_add spec)) ∧
   (∀ package, respects identities_kept (root_dep package)) ∧
   (∀ package constraint,
      respects identities_kept (_versions_for package constraint)) ∧
   (∀ package v, respects identities_kept (dependencies_for package v))) ∧
  (∀ name constraint s d s1 name' constraint' s2 d' s3,
     Dependency_init name constraint s = Return d s1 →
     identities_kept s1 s2 →
     Dependency_init name' constraint' s2 = Return d' s3 →
     Dependency.eq d d' = false ∧ Dependency.eq d' d = false).
Proof.
  split.
  - split; [|split; [|split; [|split]]]; intros.
    + apply (respects_add identities_kept identities_kept_step).
    + apply (respects_discover_and_add identities_kept identities_kept_step).
    + apply (respects_root_dep identities_kept identities_kept_step).
    + apply (respects_versions_for identities_kept identities_kept_step).
    + apply (respects_dependencies_for identities_kept identities_kept_step).
  - intros name constraint s d s1 name' constraint' s2 d' s3 Hd Hkept Hd'.
    unfold Dependency_init, bind, or_raise, gets, modify, ret in Hd, Hd'.
    destruct (parse_constraint (or_star constraint)); simpl in Hd; [|done].
    destruct (parse_constraint (or_star constraint')); simpl in Hd'; [|done].
    injection Hd as <- <-. injection Hd' as <- _.
    unfold identities_kept in Hkept. unfold Dependency.eq. simpl.
    destruct s; simpl in *. split; apply Nat.eqb_neq; lia.
Qed.

End Invariants.

(** * Discovery calls and what they record *)

Section Discovery.
Context `{E : Collaborators}.

Implicit Types (s : PackageSource) (name package : string) (v : Version).

Lemma Dependency_init_keeps_asked name constraint :
  keeps asked (Dependency_init name constraint).
Proof. apply keeps_Dependency_init. by intros g []. Qed.

Lemma lookup_entry_final package v s : final (lookup_entry package v s) = s.
Proof.
  rewrite lookup_entry_unfold. by destruct (versions_of _ _ !! v).
Qed.

Lemma discover_and_add_asks spec s :
  asked (final (discover_and_add spec s)) = asked s ∨
  asked (final (discover_and_add spec s)) = asked s ++ [spec].
Proof.
  destruct (Requirement_parse spec) as [req|] eqn:Hreq.
  - right. by eapply discover_and_add_asked.
  - left. by rewrite discover_and_add_unparsed.
Qed.

(** X4: A call of a method makes at most one discovery call, and the
    requirement string it asks about is fixed by the arguments: [add]
    asks nothing; [discover_and_add] asks about its argument;
    [root_dep] about the printed requirement; [_versions_for] about
    the package followed by the printed constraint; [dependencies_for]
    about [package==version]. *)
Theorem methods_ask_at_most_once s :
  (∀ name version deps, asked (final (add name version deps s)) = asked s) ∧
  (∀ spec,
     asked (final (discover_and_add spec s)) = asked s ∨
     asked (final (discover_and_add spec s)) = asked s ++ [spec]) ∧
  (∀ package,
     asked (final (root_dep package s)) = asked s ∨
     ∃ req, Requirement_parse package = Some req ∧
       asked (final (root_dep package s)) = asked s ++ [Requirement.str req]) ∧
  (∀ package constraint,
     asked (final (_versions_for package constraint s)) = asked s ∨
     asked (final (_versions_for package constraint s)) =
       asked s ++ [discovery_spec package constraint]) ∧
  (∀ package v,
     asked (final (dependencies_for package v s)) = asked s ∨
     asked (final (dependencies_for package v s)) =
       asked s ++ [package +:+ "==" +:+ Version_str v]).
Proof.
  split; [|split; [|split; [|split]]].
  - intros. apply add_keeps_asked.
  - intros spec. apply discover_and_add_asks.
  - intros package.
    destruct (Requirement_parse package) as [req|] eqn:Hreq;
      [|left; unfold root_dep; by rewrite Hreq].
    rewrite (root_dep_parsed _ req) by done. rewrite final_bind.
    pose proof (Dependency_init_keeps_asked (Requirement.key req)
                  (specs_constraint req) s) as Hinit.
    destruct (Dependency_init _ _ s) as [dep s1|e s1]; simpl in Hinit; [|by left].
    rewrite final_bind. simpl.
    set (s2 := set_root_dependencies _ s1).
    assert (asked s2 = asked s) as Hs2 by (rewrite <- Hinit; by destruct s1).
    destruct (discover_and_add_asks (Requirement.str req) s2) as [H|H];
      rewrite H, Hs2; [by left|]. right. eauto.
  - intros package constraint.
    destruct (_packages s !! package) eqn:Hk.
    + left. rewrite _versions_for_known by eauto. done.
    + rewrite _versions_for_unknown by done.
      destruct (discover_and_add_asks (discovery_spec package constraint) s)
        as [H|H]; [left|right]; rewrite <- H;
        by destruct (discover_and_add _ s).
  - intros package v. unfold dependencies_for.
    destruct (String.eqb package root); [by left|].
    rewrite final_bind, lookup_entry_unfold.
    destruct (versions_of (_packages s) package !! v) as [[deps|]|]; [| |by left].
    + rewrite final_bind. simpl. rewrite lookup_entry_final. by left.
    + rewrite final_bind.
      destruct (discover_and_add_asks (package +:+ "==" +:+ Version_str v) s)
        as [H|H]; [left|right]; rewrite <- H;
        destruct (discover_and_add _ s); simpl; by rewrite ?lookup_entry_final.
Qed.

(** The first loop of [discover_and_add] records no dependency list. *)
Lemma for_each_add_no_list name versions s s' name' v deps :
  for_each versions (λ version, add name version None) s = Return tt s' →
  versions_of (_packages s') name' !! v = Some (Some deps) →
  versions_of (_packages s) name' !! v = Some (Some deps).
Proof.
  revert s. induction versions as [|x versions IH]; intros s; simpl.
  - by intros [= <-].
  - unfold bind at 1. rewrite add_unfold.
    destruct (Version_parse x) as [w|]; [|done]. simpl.
    rewrite already_exists_None. intros Hrun Hrec.
    specialize (IH _ Hrun Hrec). destruct s; simpl in *.
    rewrite versions_of_put in IH. by case_decide.
Qed.

(** A discovery that answers with parsable versions and well-formed
    requirements, for a version that is available or has no list
    recorded, goes through. *)
Lemma discover_and_add_run s spec req d v :
  Requirement_parse spec = Some req →
  discover_dependencies_and_versions (asked s) spec
    (index_url s) (extra_index_url s) (cache_dir s) = Some d →
  Forall (λ y, is_Some (Version_parse y)) (Discovery.available d) →
  Version_parse (Discovery.version d) = Some v →
  (Discovery.version d ∈ Discovery.available d ∨
   ∀ deps, versions_of (_packages s) (Requirement.key req) !! v ≠ Some (Some deps)) →
  Forall well_formed (Discovery.requires d) →
  ∃ deps s',
    discover_and_add spec s = Return tt s' ∧
    versions_of (_packages s') (Requirement.key req) !! v = Some (Some deps) ∧
    length deps = length (Discovery.requires d) ∧
    (∀ x w, x ∈ Discovery.available d → Version_parse x = Some w → w ≠ v →
       versions_of (_packages s') (Requirement.key req) !! w = Some None) ∧
    (∀ name' w, name' ≠ Requirement.key req →
       versions_of (_packages s') name' !! w = versions_of (_packages s) name' !! w) ∧
    asked s' = asked s ++ [spec].
Proof.
  intros Hreq Hd Hall Hv Hlegal Hwf.
  pose proof (discover_and_add_asked spec s req Hreq) as Hasked.
  rewrite (discover_and_add_parsed _ req) in * by done.
  rewrite (bind_Return _ _ _ _ _ (discover_returns _ _ _ Hd)) in *.
  set (s1 := set_asked (λ l, l ++ [spec]) s) in *.
  destruct (for_each_add_placeholder (Requirement.key req) (Discovery.available d)
              s1 Hall) as (s2 & Hrun & Hnone).
  rewrite (bind_Return _ _ _ _ _ Hrun) in *.
  assert (∀ name' w, name' ≠ Requirement.key req →
            versions_of (_packages s2) name' !! w =
            versions_of (_packages s) name' !! w) as Hothers.
  { intros name' w Hne. clear -Hrun Hne. subst s1.
    transitivity (versions_of (_packages (set_asked (λ l, l ++ [spec]) s)) name' !! w);
      [|by destruct s].
    revert Hrun. generalize (set_asked (λ l, l ++ [spec]) s) as s0.
    induction (Discovery.available d) as [|x xs IH]; intros s0; simpl.
    - by intros [= <-].
    - unfold bind at 1. intros Hrun.
      pose proof (add_lookup_other (Requirement.key req) x None s0 name' w) as Hx.
      destruct (add _ x None s0) as [[] s0'|]; [|done]. simpl in Hx.
      rewrite (IH _ Hrun). apply Hx. intros. congruence. }
  assert (already_exists (versions_of (_packages s2) (Requirement.key req) !! v)
            (Some (Discovery.requires d)) = false) as Hfree.
  { destruct (already_exists _ _) eqn:Hex; [|done].
    apply already_exists_spec in Hex as (recorded & ds & Hrec & _).
    destruct Hlegal as [Hin|Hnot].
    - rewrite Hnone in Hrec by (right; eauto). done.
    - pose proof (for_each_add_no_list _ _ _ _ _ _ _ Hrun Hrec) as Hrec0.
      destruct (Hnot recorded). by destruct s. }
  rewrite add_unfold, Hv in *. simpl in *. rewrite Hfree in *.
  destruct (dependencies_of_returns (Discovery.requires d)
              (set_packages (ensure (Requirement.key req)) s2) Hwf)
    as (deps & s3 & Hdeps & Hlen & Hpk).
  rewrite Hdeps in *. simpl in Hasked.
  exists deps, (set_packages (put (Requirement.key req) v (Some deps)) s3).
  split; [done|].
  assert (∀ name' w,
    versions_of (_packages (set_packages (put (Requirement.key req) v (Some deps)) s3))
      name' !! w =
    if decide (Requirement.key req = name' ∧ v = w) then Some (Some deps)
    else versions_of (_packages s2) name' !! w) as Hlook.
  { intros name' w. destruct s3; simpl in *. rewrite versions_of_put.
    case_decide; [done|]. rewrite Hpk. destruct s2; simpl.
    by rewrite versions_of_ensure. }
  split; [|split; [done|split; [|split; [|done]]]].
  - rewrite Hlook. by rewrite decide_True.
  - intros x w Hx Hw Hne. rewrite Hlook.
    rewrite decide_False by (by intros [_ ->]). apply Hnone. right. eauto.
  - intros name' w Hne. rewrite Hlook.
    rewrite decide_False by (by intros [<- _]). by apply Hothers.
Qed.

End Discovery.

(** * How the methods compose *)

Section Compositions.
Context `{E : Collaborators}.

Implicit Types (s : PackageSource) (name package : string) (v : Version).



(** The first loop of [discover_and_add] leaves a placeholder a
    placeholder. *)
Lemma for_each_add_keeps_placeholder name versions s s' name' v :
  for_each versions (λ version, add name version None) s = Return tt s' →
  versions_of (_packages s) name' !! v = Some None →
  versions_of (_packages s') name' !! v = Some None.
Proof.
  revert s. induction versions as [|x versions IH]; intros s; simpl.
  - by intros [= <-].
  - unfold bind at 1. rewrite add_unfold.
    destruct (Version_parse x) as [w|]; [|done]. simpl.
    rewrite already_exists_None. intros Hrun Hrec. apply (IH _ Hrun).
    destruct s; simpl in *. rewrite versions_of_put. by case_decide.
Qed.

(** X7: When the placeholder is recorded and the index answers for
    another package name or another version than the one asked about,
    [dependencies_for] returns [None], not a list; when the discovery
    raises, so does [dependencies_for]. *)
Theorem dependencies_for_other_version s package v req d :
  package ≠ root →
  versions_of (_packages s) package !! v = Some None →
  Requirement_parse (package +:+ "==" +:+ Version_str v) = Some req →
  discover_dependencies_and_versions (asked s) (package +:+ "==" +:+ Version_str v)
    (index_url s) (extra_index_url s) (cache_dir s) = Some d →
  (Requirement.key req ≠ package ∨ Version_parse (Discovery.version d) ≠ Some v) →
  match discover_and_add (package +:+ "==" +:+ Version_str v) s with
  | Return _ s' => dependencies_for package v s = Return None s'
  | Raise e s' => dependencies_for package v s = Raise e s'
  end.
Proof.
  intros Hne Hrec Hreq Hd Hother.
  rewrite (dependencies_for_other _ _ _ Hne).
  unfold bind. rewrite lookup_entry_unfold, Hrec.
  destruct (discover_and_add _ s) as [[] s'|e s'] eqn:Hrun; [|done].
  rewrite lookup_entry_unfold.
  assert (versions_of (_packages s') package !! v = Some None) as ->; [|done].
  rewrite (discover_and_add_parsed _ req) in Hrun by done.
  rewrite (bind_Return _ _ _ _ _ (discover_returns _ _ _ Hd)) in Hrun.
  unfold bind at 1 in Hrun.
  destruct (for_each _ _ _) as [[] s2|] eqn:Hloop; [|done].
  pose proof (add_lookup_other (Requirement.key req) (Discovery.version d)
                (Some (Discovery.requires d)) s2 package v) as Hlast.
  rewrite Hrun in Hlast. simpl in Hlast. rewrite Hlast.
  - eapply for_each_add_keeps_placeholder; [done|]. by destruct s.
  - intros w Hw Hk ->. by destruct Hother.
Qed.



(** X9: An [add] for a name that is not a key, failing on one of the
    requirements, leaves the name as a key without versions: from
    then on [_versions_for] answers with the empty list and starts no
    discovery for it. *)
Theorem failed_add_registers_name s name version v deps e s' :
  _packages s !! name = None →
  Version_parse version = Some v →
  add name version (Some deps) s = Raise e s' →
  _packages s' !! name = Some ∅ ∧
  ∀ constraint, _versions_for name constraint s' = Return [] s'.
Proof.
  intros Hk Hv. rewrite add_unfold, Hv. simpl.
  assert (versions_of (_packages s) name !! v = None) as ->.
  { unfold versions_of. rewrite Hk. simpl. by rewrite (lookup_empty (M:=gmap Version)). }
  simpl.
  pose proof (dependencies_of_keeps_packages deps (set_packages (ensure name) s)) as Hpk.
  destruct (dependencies_of deps _) as [|e2 s2]; [done|]. simpl in Hpk.
  intros [= <- <-].
  assert (_packages s2 !! name = Some ∅) as Hempty.
  { rewrite Hpk. destruct s; simpl in *. unfold ensure. rewrite Hk.
    by rewrite lookup_insert_eq. }
  split; [done|]. intros constraint.
  rewrite _versions_for_known by eauto. unfold listing. rewrite Hempty.
  by rewrite map_to_list_empty.
Qed.

(** X10: An [add] changes the entry of its own name and version only,
    whether it returns or raises. *)
Theorem add_leaves_other_entries s name version deps name' v' :
  (name ≠ name' ∨ Version_parse version ≠ Some v') →
  versions_of (_packages (final (add name version deps s))) name' !! v' =
  versions_of (_packages s) name' !! v'.
Proof.
  intros Hother. apply add_lookup_other. intros v Hv Hname ->.
  by destruct Hother.
Qed.


(** X12: A version that is not a key of a registered package is a missing
    key like an unregistered package: [dependencies_for] raises
    [KeyError] and starts no discovery. *)
Theorem dependencies_for_unknown_version s package v :
  package ≠ root →
  versions_of (_packages s) package !! v = None →
  dependencies_for package v s = Raise KeyError s.
Proof.
  intros Hne Hrec. rewrite dependencies_for_other by done.
  unfold bind. by rewrite lookup_entry_unfold, Hrec.
Qed.

End Compositions.

(** * Root requirements and repeated queries *)

Section Queries.
Context `{E : Collaborators}.

Implicit Types (s : PackageSource) (name package : string) (v : Version).

(** X13: [root_dep] appends the dependency before it asks the index: when
    the requirement and its constraint parse, the root dependencies
    end up one longer, by a dependency named after the requirement's
    key and carrying its joined clauses, also when the discovery then
    raises; [dependencies_for] on the root returns the longer list.
    When the requirement does not parse, nothing changes. *)
Theorem root_dep_appends s package :
  (Requirement_parse package = None →
   root_dep package s = Raise (RequirementParseError package) s) ∧
  (∀ req parsed,
     Requirement_parse package = Some req →
     parse_constraint (or_star (specs_constraint req)) = Some parsed →
     _root_dependencies (final (root_dep package s)) =
       _root_dependencies s ++
         [Dependency.mk (next_oid s) (Requirement.key req) parsed
            (specs_constraint req)] ∧
     ∀ v, dependencies_for root v (final (root_dep package s)) =
          Return (Some (_root_dependencies s ++
                          [Dependency.mk (next_oid s) (Requirement.key req) parsed
                             (specs_constraint req)]))
                 (final (root_dep package s))).
Proof.
  split.
  - intros Hreq. unfold root_dep. by rewrite Hreq.
  - intros req parsed Hreq Hparsed.
    assert (_root_dependencies (final (root_dep package s)) =
            _root_dependencies s ++
              [Dependency.mk (next_oid s) (Requirement.key req) parsed
                 (specs_constraint req)]) as Hroot.
    { rewrite (root_dep_parsed _ req) by done.
      assert (Dependency_init (Requirement.key req) (specs_constraint req) s =
              Return (Dependency.mk (next_oid s) (Requirement.key req) parsed
                        (specs_constraint req)) (set_next_oid S s)) as Hinit.
      { unfold Dependency_init. by rewrite Hparsed. }
      rewrite (bind_Return _ _ _ _ _ Hinit). rewrite final_bind. simpl.
      rewrite discover_and_add_keeps_root_dependencies. by destruct s. }
    split; [done|]. intros v. unfold dependencies_for.
    rewrite String.eqb_refl. unfold bind, gets, ret. by rewrite Hroot.
Qed.

Lemma add_returns_known name version deps s s' :
  add name version deps s = Return tt s' → is_Some (_packages s' !! name).
Proof.
  rewrite add_unfold. destruct (Version_parse version) as [v|]; [|done]. simpl.
  destruct (already_exists _ _); [done|]. destruct deps as [ds|].
  - destruct (dependencies_of ds _) as [dependencies s2|]; [|done].
    intros [= <-]. destruct s2; simpl. apply put_known. by left.
  - intros [= <-]. destruct s; simpl. apply put_known. by left.
Qed.

Lemma discover_and_add_returns_known spec req s s' :
  Requirement_parse spec = Some req →
  discover_and_add spec s = Return tt s' →
  is_Some (_packages s' !! Requirement.key req).
Proof.
  intros Hreq. rewrite (discover_and_add_parsed _ req) by done.
  unfold bind at 1. destruct (discover spec s) as [d s1|]; [|done].
  unfold bind at 1. destruct (for_each _ _ s1) as [[] s2|]; [|done].
  apply add_returns_known.
Qed.

(** X14: Once [root_dep] has returned, the package it asked the index about
    is a key, and [_versions_for] answers for it from the dictionary:
    it returns and leaves the adapter, and so the list of discovery
    calls, as it is. *)
Theorem root_dep_then_versions_for s package req req' s' :
  Requirement_parse package = Some req →
  Requirement_parse (Requirement.str req) = Some req' →
  root_dep package s = Return tt s' →
  is_Some (_packages s' !! Requirement.key req') ∧
  ∀ constraint,
    _versions_for (Requirement.key req') constraint s' =
    Return (listing (Requirement.key req') constraint (_packages s')) s'.
Proof.
  intros Hreq Hreq'. rewrite (root_dep_parsed _ req) by done.
  unfold bind at 1. destruct (Dependency_init _ _ s) as [dep s1|]; [|done].
  unfold bind at 1. simpl. intros Hrun.
  pose proof (discover_and_add_returns_known _ _ _ _ Hreq' Hrun) as Hk.
  split; [done|]. intros constraint. by apply _versions_for_known.
Qed.

(** X15: A discovery that fails leaves the dictionary and the root
    dependencies as they were.  A requirement string that does not
    parse is not asked about; a call that the index fails is on the
    list of calls. *)
Theorem failed_discovery_keeps_cache s spec :
  (Requirement_parse spec = None →
   discover_and_add spec s = Raise (RequirementParseError spec) s) ∧
  (∀ req,
     Requirement_parse spec = Some req →
     discover_dependencies_and_versions (asked s) spec
       (index_url s) (extra_index_url s) (cache_dir s) = None →
     ∃ s', discover_and_add spec s = Raise (DiscoveryError spec) s' ∧
           _packages s' = _packages s ∧
           _root_dependencies s' = _root_dependencies s ∧
           asked s' = asked s ++ [spec]).
Proof.
  split; [apply discover_and_add_unparsed|].
  intros req Hreq Hd. rewrite (discover_and_add_parsed _ req) by done.
  rewrite (bind_Raise _ _ _ _ _ (discover_fails _ _ Hd)).
  eexists. split; [done|]. by destruct s.
Qed.

(** X16: Asking [_versions_for] twice.  When the first call returns and the
    package is then a key, the second call returns the same list and
    leaves the adapter as it is.  When the package is still not a key,
    or the first call raised, nothing was remembered: the second call
    asks the index again, for the same requirement string. *)
Theorem versions_for_twice s package constraint :
  (∀ vs s', _versions_for package constraint s = Return vs s' →
            is_Some (_packages s' !! package) →
            _versions_for package constraint s' = Return vs s') ∧
  (∀ req, _packages s !! package = None →
          Requirement_parse (discovery_spec package constraint) = Some req →
          _packages (final (_versions_for package constraint s)) !! package = None →
          asked (final (_versions_for package constraint
                          (final (_versions_for package constraint s)))) =
          asked s ++ [discovery_spec package constraint;
                      discovery_spec package constraint]).
Proof.
  split.
  - intros vs s' Hrun Hk. rewrite _versions_for_known by done.
    destruct (_packages s !! package) eqn:Hk0.
    + rewrite _versions_for_known in Hrun by eauto. by injection Hrun as <- <-.
    + rewrite _versions_for_unknown in Hrun by done.
      destruct (discover_and_add _ s); [|done]. by injection Hrun as <- <-.
  - intros req Hk Hreq Hk'.
    assert (∀ s0, _packages s0 !! package = None →
              asked (final (_versions_for package constraint s0)) =
              asked s0 ++ [discovery_spec package constraint]) as Hone.
    { intros s0 Hs0. rewrite _versions_for_unknown by done.
      rewrite <- (discover_and_add_asked _ s0 req Hreq).
      by destruct (discover_and_add _ s0). }
    rewrite (Hone _ Hk'), (Hone _ Hk). by rewrite <- app_assoc.
Qed.

Lemma replace_from_one a (new : string) c (text : string) :
  replace_from (String a EmptyString) new 0 (String c text) =
  if Ascii.ascii_dec a c
  then new +:+ replace_from (String a EmptyString) new 0 text
  else String c (replace_from (String a EmptyString) new 0 text).
Proof. simpl. destruct (Ascii.ascii_dec a c); [|done]. by destruct text. Qed.

(** X17: The requirement string that [_versions_for] asks about starts with
    the package and goes on without any space. *)
Theorem discovery_spec_drops_spaces package constraint :
  ∃ rest, discovery_spec package constraint = package +:+ rest ∧
          has_space rest = false.
Proof.
  unfold discovery_spec. eexists. split; [done|].
  generalize (replace "||" "|" (str_of_constraint constraint)) as text.
  unfold replace. induction text as [|c text IH]; [done|].
  rewrite (replace_from_one " " "" c text).
  destruct (Ascii.ascii_dec " " c) as [<-|Hne]; [done|].
  simpl. rewrite IH, orb_false_r. apply Ascii.eqb_neq. congruence.
Qed.

End Queries.

Section Filtering.
Context `{E : Collaborators} `{!VersionOrder E}.

Lemma StronglySorted_filter_keeps {A} (R : relation A) (P : A → Prop)
    `{∀ x, Decision (P x)} (l : list A) :
  StronglySorted R l → StronglySorted R (filter P l).
Proof.
  induction 1 as [|a l _ IH Hall]; [constructor|].
  rewrite filter_cons. case_decide; [|done].
  constructor; [done|]. apply Forall_forall. intros b Hb.
  apply list_elem_of_filter in Hb as [_ Hb]. by eapply Forall_forall in Hall.
Qed.

Lemma sorted_reverse_filter (P : Version → Prop) `{∀ x, Decision (P x)}
    (versions : list Version) :
  NoDup versions →
  sorted_reverse (filter P versions) = filter P (sorted_reverse versions).
Proof.
  intros Hnd.
  apply (StronglySorted_unique_strong (λ a b, Version_lt b a = true)).
  - intros a b _ _ Hab Hba. apply Version_lt_asym in Hab. congruence.
  - by apply sorted_reverse_descending, NoDup_filter.
  - by apply StronglySorted_filter_keeps, sorted_reverse_descending.
  - unfold sorted_reverse. by rewrite !merge_sort_Permutation.
Qed.

(** X18: A constraint only drops versions: for a package that is a key, the
    answer of [_versions_for] under a constraint is the answer without
    constraint, in the same order, less the versions the constraint
    does not allow. *)
Theorem versions_for_constraint_filters s package constraint :
  is_Some (_packages s !! package) →
  ∃ everything,
    _versions_for package None s = Return everything s ∧
    _versions_for package constraint s =
      Return (filter (λ version, accepts constraint version = true) everything) s.
Proof.
  intros Hk. rewrite !_versions_for_known by done. eexists. split; [done|].
  f_equal. unfold listing. destruct Hk as [known ->].
  assert (filter (λ version, accepts None version = true) (map_to_list known).*1 =
          (map_to_list known).*1) as ->.
  { induction ((map_to_list known).*1) as [|x l IH]; [done|].
    rewrite filter_cons_True by done. by rewrite IH. }
  apply sorted_reverse_filter, NoDup_fst_map_to_list.
Qed.

End Filtering.

(** * Lists that stay and lists that are refused *)

Section Lists.
Context `{E : Collaborators}.

Implicit Types (s : PackageSource) (name package : string) (v : Version).

(** X21: [add] never puts one dependency list in the place of another: a
    recorded list is still there afterwards, or the placeholder is,
    or the call was refused. *)
Theorem add_never_replaces_list s name version deps name' v' recorded now :
  versions_of (_packages s) name' !! v' = Some (Some recorded) →
  versions_of (_packages (final (add name version deps s))) name' !! v' =
    Some (Some now) →
  now = recorded.
Proof.
  intros Hrec. rewrite add_unfold.
  destruct (Version_parse version) as [v|] eqn:Hv; simpl; [|congruence].
  destruct (decide (name = name' ∧ v = v')) as [[<- <-]|Hother].
  - rewrite Hrec. destruct deps as [ds|]; simpl.
    + destruct s; simpl in *. rewrite versions_of_ensure. congruence.
    + destruct s; simpl in *. rewrite versions_of_put.
      by rewrite decide_True.
  - pose proof (add_lookup_other name version deps s name' v') as Hsame.
    rewrite add_unfold, Hv in Hsame. simpl in Hsame. rewrite Hsame; [congruence|].
    intros w Hw Hn ->. apply Hother. split; congruence.
Qed.

(** The first loop of [discover_and_add] leaves alone the versions
    that are not available. *)
Lemma for_each_add_other name versions s s' name' v :
  for_each versions (λ version, add name version None) s = Return tt s' →
  (name' ≠ name ∨ Forall (λ x, Version_parse x ≠ Some v) versions) →
  versions_of (_packages s') name' !! v = versions_of (_packages s) name' !! v.
Proof.
  revert s. induction versions as [|x versions IH]; intros s; simpl.
  - by intros [= <-].
  - unfold bind at 1. intros Hrun Hother.
    pose proof (add_lookup_other name x None s name' v) as Hx.
    destruct (add name x None s) as [[] s1|]; [|done]. simpl in Hx.
    rewrite (IH _ Hrun).
    + apply Hx. intros w Hw Hn ->. destruct Hother as [?|Hall]; [done|].
      by apply Forall_cons in Hall as [? _].
    + destruct Hother as [?|Hall]; [by left|right].
      by apply Forall_cons in Hall as [_ ?].
Qed.

(** X19: A discovery whose answer is a version that has its list recorded
    and is not among the available ones is refused with [ValueError];
    the list stays, and so do the placeholders written for the
    available versions before the refusal. *)
Theorem discover_and_add_refuses_recorded s spec req d v recorded :
  Requirement_parse spec = Some req →
  discover_dependencies_and_versions (asked s) spec
    (index_url s) (extra_index_url s) (cache_dir s) = Some d →
  Forall (λ y, is_Some (Version_parse y)) (Discovery.available d) →
  Version_parse (Discovery.version d) = Some v →
  Forall (λ x, Version_parse x ≠ Some v) (Discovery.available d) →
  versions_of (_packages s) (Requirement.key req) !! v = Some (Some recorded) →
  ∃ s', discover_and_add spec s = Raise (ValueError (Requirement.key req) v) s' ∧
        versions_of (_packages s') (Requirement.key req) !! v = Some (Some recorded) ∧
        (∀ x w, x ∈ Discovery.available d → Version_parse x = Some w →
           versions_of (_packages s') (Requirement.key req) !! w = Some None).
Proof.
  intros Hreq Hd Hall Hv Hnot Hrec.
  rewrite (discover_and_add_parsed _ req) by done.
  rewrite (bind_Return _ _ _ _ _ (discover_returns _ _ _ Hd)).
  destruct (for_each_add_placeholder (Requirement.key req) (Discovery.available d)
              (set_asked (λ l, l ++ [spec]) s) Hall) as (s2 & Hrun & Hnone).
  rewrite (bind_Return _ _ _ _ _ Hrun).
  assert (versions_of (_packages s2) (Requirement.key req) !! v =
          Some (Some recorded)) as Hrec2.
  { rewrite (for_each_add_other _ _ _ _ _ _ Hrun) by (by right). by destruct s. }
  rewrite add_unfold, Hv. simpl. rewrite Hrec2. simpl.
  eexists. split; [done|].
  assert (∀ w, versions_of (_packages (set_packages (ensure (Requirement.key req)) s2))
                 (Requirement.key req) !! w =
               versions_of (_packages s2) (Requirement.key req) !! w) as Hsame.
  { intros w. destruct s2; simpl. by rewrite versions_of_ensure. }
  split; [by rewrite Hsame|]. intros x w Hx Hw. rewrite Hsame.
  apply Hnone. right. eauto.
Qed.

(** X20: After a discovery that went through, [_versions_for] without
    constraint offers the answered version and every available
    version of the package, and starts no further discovery. *)
Theorem discovered_versions_listed s spec req d v :
  Requirement_parse spec = Some req →
  discover_dependencies_and_versions (asked s) spec
    (index_url s) (extra_index_url s) (cache_dir s) = Some d →
  Forall (λ y, is_Some (Version_parse y)) (Discovery.available d) →
  Version_parse (Discovery.version d) = Some v →
  (Discovery.version d ∈ Discovery.available d ∨
   ∀ deps, versions_of (_packages s) (Requirement.key req) !! v ≠ Some (Some deps)) →
  Forall well_formed (Discovery.requires d) →
  ∃ s' vs,
    discover_and_add spec s = Return tt s' ∧
    _versions_for (Requirement.key req) None s' = Return vs s' ∧
    v ∈ vs ∧
    (∀ x w, x ∈ Discovery.available d → Version_parse x = Some w → w ∈ vs).
Proof.
  intros Hreq Hd Hall Hv Hlegal Hwf.
  destruct (discover_and_add_run s spec req d v Hreq Hd Hall Hv Hlegal Hwf)
    as (deps & s' & Hrun & Hlist & _ & Hnone & _ & _).
  exists s', (listing (Requirement.key req) None (_packages s')).
  split; [done|]. split.
  { apply _versions_for_known. by eapply versions_of_known. }
  assert (∀ w, is_Some (versions_of (_packages s') (Requirement.key req) !! w) →
               w ∈ listing (Requirement.key req) None (_packages s')) as Hin.
  { intros w Hw. by apply elem_of_listing. }
  split; [apply Hin; by rewrite Hlist|].
  intros x w Hx Hw. apply Hin. destruct (decide (w = v)) as [->|Hne].
  - by rewrite Hlist.
  - by rewrite (Hnone x w).
Qed.

End Lists.
(** * The small index at work *)

#[local] Existing Instance Demo.index.

(** Closes an equation between closed terms by running both sides. *)
Ltac evaluate :=
  lazymatch goal with
  | |- ?l = ?r => vm_cast_no_check (@eq_refl _ r)
  end.

Lemma index_order : VersionOrder Demo.index.
Proof.
  split; simpl.
  - intros v. apply Nat.ltb_irrefl.
  - intros a b c. rewrite !Nat.ltb_lt. lia.
  - intros a b. rewrite !Nat.ltb_lt. lia.
Qed.

(** The answer for [b] on the index: of the versions [1.0.0] and
    [1.5.0] recorded for [b], the constraint [>=1.5.0] keeps the
    second. *)
Lemma versions_for_filter_sorted_witness :
  _versions_for "b" (Some Demo.from_1_5) Demo.stocked = Return [150] Demo.stocked ∧
  StronglySorted (λ a b : nat, Nat.ltb b a = true) [150] ∧
  (∀ v : nat, v ∈ [150] ↔
     is_Some (Demo.entry Demo.stocked "b" v) ∧
     (Some Demo.from_1_5 = None ∨
      ∃ c, Some Demo.from_1_5 = Some c ∧
           allows_any c (Range.mk (Some v) (Some v) true true None) = true)).
Proof.
  assert (_versions_for "b" (Some Demo.from_1_5) Demo.stocked =
          Return [150] Demo.stocked) as Hrun by evaluate.
  split; [exact Hrun|].
  exact (proj1 (versions_for_filter_sorted (VersionOrder0:=index_order)
                  Demo.stocked "b" (Some Demo.from_1_5)) _ _ Hrun).
Defined.

(** C3 as stated fails: version [1.0.0] of [c] is recorded with the
    empty dependency list, the list supplied again is empty too, and
    the registration is refused all the same. *)
Lemma add_same_list_again_fails :
  let s := Demo.after (add "c" "1.0.0" (Some [])) Demo.fresh in
  Demo.entry s "c" 100 = Some (Some []) ∧
  dependencies_of [] s = Return [] s ∧
  add "c" "1.0.0" (Some []) s = Raise (ValueError "c" 100) s.
Proof. repeat split; evaluate. Qed.

(** Registration on the index: version [2.0.0] of [a] has its list
    and refuses another; version [1.0.0] holds the placeholder and
    takes one. *)
Lemma add_duplicate_version_witness :
  add "a" "2.0.0" (Some []) Demo.declared =
    Raise (ValueError "a" 200) Demo.declared ∧
  ∃ dependencies s',
    add "a" "1.0.0" (Some ["b>=1.0.0,<2.0.0"]) Demo.declared = Return tt s' ∧
    versions_of (_packages s') "a" !! 100 = Some (Some dependencies) ∧
    length dependencies = 1.
Proof.
  split.
  - destruct (add_duplicate_version Demo.declared "a" "2.0.0" 200 eq_refl)
      as (Hrefused & _ & _).
    apply (Hrefused [Demo.b_dep 1] []). evaluate.
  - destruct (add_duplicate_version Demo.declared "a" "1.0.0" 100 eq_refl)
      as (_ & _ & Htaken).
    apply (Htaken ["b>=1.0.0,<2.0.0"]); [evaluate|].
    repeat constructor.
    exists (Requirement.mk "b" [(">=", "1.0.0"); ("<", "2.0.0")] "b>=1.0.0,<2.0.0").
    split; [reflexivity|]. vm_compute. eauto.
Defined.

(** C4 as stated fails: [c] is unknown to the adapter and is asked
    for under the constraint that allows every version, which prints
    as [*]; the string [c*] is no requirement, so the query raises and
    the index has not been asked once. *)
Lemma versions_for_unparsable_asks_nothing :
  _packages Demo.fresh !! "c" = None ∧
  discovery_spec "c" (Some Demo.anything) = "c*" ∧
  Requirement_parse "c*" = None ∧
  _versions_for "c" (Some Demo.anything) Demo.fresh =
    Raise (RequirementParseError "c*") Demo.fresh ∧
  asked (final (_versions_for "c" (Some Demo.anything) Demo.fresh)) = [].
Proof. repeat split; evaluate. Qed.

(** An unknown package on the index: [Zope] is asked about once; the
    index files it under [zope], so [Zope] stays unknown and the answer
    is empty.  The string [b>=1.5.0] is not a requirement of the index:
    the query for [b] raises before the index is asked. *)
Lemma versions_for_unknown_package_witness :
  asked (final (_versions_for "Zope" (Some Demo.from_1_0) Demo.fresh)) =
    [] ++ ["Zope>=1.0.0"] ∧
  _versions_for "Zope" (Some Demo.from_1_0) Demo.fresh =
    Return [] (Demo.after (discover_and_add "Zope>=1.0.0") Demo.fresh) ∧
  _versions_for "b" (Some Demo.from_1_5) Demo.fresh =
    Raise (RequirementParseError "b>=1.5.0") Demo.fresh.
Proof.
  destruct (versions_for_unknown_package Demo.fresh "Zope" (Some Demo.from_1_0)
              eq_refl) as (Hasked & _ & Hempty & _).
  destruct (versions_for_unknown_package Demo.fresh "b" (Some Demo.from_1_5)
              eq_refl) as (_ & Hraised & _).
  split; [|split].
  - apply (Hasked (Requirement.mk "zope" [(">=", "1.0.0")] "Zope>=1.0.0")).
    evaluate.
  - apply Hempty; evaluate.
  - apply Hraised. evaluate.
Defined.

(** Placeholders on the index: the list recorded for version [2.0.0]
    of [a] is lost to a placeholder, directly and through the discovery
    made for version [1.0.0]. *)
Lemma add_placeholder_overwrites_witness :
  Demo.entry Demo.declared "a" 200 = Some (Some [Demo.b_dep 1]) ∧
  (∃ s', add "a" "2.0.0" None Demo.declared = Return tt s' ∧
         versions_of (_packages s') "a" !! 200 = Some None) ∧
  Demo.entry (Demo.after (discover_and_add "a==1.0.0") Demo.declared) "a" 200 =
    Some None.
Proof.
  assert (Demo.entry Demo.declared "a" 200 = Some (Some [Demo.b_dep 1]))
    as Hrecorded by evaluate.
  split; [exact Hrecorded|]. split.
  - exact (proj1 add_placeholder_overwrites Demo.declared "a" "2.0.0" 200
             [Demo.b_dep 1] eq_refl Hrecorded).
  - apply (proj2 add_placeholder_overwrites Demo.declared "a==1.0.0"
             (Requirement.mk "a" [("==", "1.0.0")] "a==1.0.0")
             (Discovery.mk ["1.0.0"; "2.0.0"] "1.0.0" [])
             "2.0.0" 200 [Demo.b_dep 1]); try evaluate.
    + repeat constructor; vm_compute; eauto.
    + apply list_elem_of_In. simpl. tauto.
    + vm_compute. discriminate.
Defined.

(** The defect behind C2 on the index.  The dependencies of version
    [1.0.0] of [a] are asked for and recorded; asking for those of
    version [2.0.0] puts the placeholder back; asking again for those
    of version [1.0.0] makes the discovery call a second time. *)
Theorem dependencies_for_asks_again :
  let s1 := Demo.after (dependencies_for "a" 100) Demo.declared in
  let s2 := Demo.after (dependencies_for "a" 200) s1 in
  let s3 := Demo.after (dependencies_for "a" 100) s2 in
  Demo.value (dependencies_for "a" 100 Demo.declared) = Some (Some []) ∧
  Demo.entry s1 "a" 100 = Some (Some []) ∧
  Demo.entry s2 "a" 100 = Some None ∧
  asked s3 = ["a"; "a==1.0.0"; "a==2.0.0"; "a==1.0.0"] ∧
  Demo.times_asked s3 "a==1.0.0" = 2.
Proof. repeat split; evaluate. Qed.

(** The root on the index: a new adapter holds no root dependency;
    declaring [a] appends the dependency on any version of [a]; once
    [a] and [b] are declared, the answer for the root holds the two
    dependencies they declare, in that order. *)
Lemma dependencies_for_root_witness :
  dependencies_for root 0 Demo.fresh = Return (Some []) Demo.fresh ∧
  dependencies_for root 0 (final (root_dep "a" Demo.fresh)) =
    Return (Some ([] ++ [Dependency.mk 0 "a" (IsVersionRange Spec.any) ""]))
           (final (root_dep "a" Demo.fresh)) ∧
  ∃ deps,
    dependencies_for root 0 (Demo.after (for_each ["a"; "b"] root_dep) Demo.fresh) =
      Return (Some ([] ++ deps))
             (Demo.after (for_each ["a"; "b"] root_dep) Demo.fresh) ∧
    Forall2 declares ["a"; "b"] deps.
Proof.
  destruct (dependencies_for_root Demo.fresh 0)
    as (_ & _ & Hnew & Hone & Hbuilt & _).
  split; [|split].
  - apply (Hnew "cache" "https://index" ""). reflexivity.
  - apply (Hone "a" (Requirement.mk "a" [] "a")); reflexivity.
  - destruct (Hbuilt ["a"; "b"]) as (deps & Hrun & _ & Hall).
    exists deps. split; [exact Hrun|]. apply Hall. evaluate.
Defined.

(** An unregistered package on the index: nothing is known of [c]. *)
Lemma dependencies_for_unregistered_witness :
  dependencies_for "c" 100 Demo.fresh = Raise KeyError Demo.fresh.
Proof.
  apply (dependencies_for_unregistered Demo.fresh "c" 100); [discriminate|].
  reflexivity.
Defined.

(** Conversion on the index: the two ranges around [1.5.0]. *)
Lemma convert_dependency_keeps_bounds_witness :
  ∃ rs, Constraint.constraint (convert_dependency (E:=Demo.index) (Demo.not_1_5 0)) =
          Union_of rs ∧
        Forall2 same_bounds
          [VersionRange.mk None (Some 150) false false;
           VersionRange.mk (Some 150) None false false] rs.
Proof.
  destruct (convert_dependency_keeps_bounds (E:=Demo.index) (Demo.not_1_5 0))
    as (_ & _ & Hunion & _).
  exact (Hunion _ eq_refl).
Defined.



(** The defect behind C10 on the index.  The root requirement [b] and
    the requirement of version [2.0.0] of [a] both yield a dependency
    named [b]; the two do not compare equal, while each equals
    itself. *)
Theorem same_name_dependencies_differ :
  _root_dependencies Demo.stocked !! 1 = Some (Demo.any_b 2) ∧
  Demo.entry Demo.stocked "a" 200 = Some (Some [Demo.b_dep 1]) ∧
  Dependency.name (Demo.any_b 2) = Dependency.name (Demo.b_dep 1) ∧
  Dependency.eq (Demo.any_b 2) (Demo.b_dep 1) = false ∧
  Dependency.eq (Demo.any_b 2) (Demo.any_b 2) = true.
Proof. repeat split; evaluate. Qed.

(** * More of the small index *)

Ltac all_parse := repeat constructor; vm_compute; eauto.
Ltac member := apply list_elem_of_In; simpl; tauto.
Ltac all_well_formed :=
  repeat constructor;
  match goal with
  | |- well_formed ?dep =>
      let r := eval vm_compute in (Demo.parse_requirement dep) in
      match r with
      | Some ?req => exists req; split; [reflexivity|vm_compute; eauto]
      end
  end.

(** A dependency on [b] built before the root requirement [a] is
    declared, and one built after. *)
Lemma later_dependency_differs_witness :
  Dependency.eq (Demo.any_b 0) (Demo.any_b 3) = false ∧
  Dependency.eq (Demo.any_b 3) (Demo.any_b 0) = false.
Proof.
  destruct (proj1 (later_dependency_differs (E:=Demo.index)))
    as (_ & _ & Hroot & _).
  apply (proj2 (later_dependency_differs (E:=Demo.index))
           "b" "" Demo.fresh (Demo.any_b 0) (set_next_oid S Demo.fresh)
           "b" "" (Demo.after (root_dep "a") (set_next_oid S Demo.fresh))
           (Demo.any_b 3)
           (set_next_oid S (Demo.after (root_dep "a") (set_next_oid S Demo.fresh)))).
  - evaluate.
  - apply Hroot.
  - evaluate.
Defined.



(** Asked about version [1.0.0] of [b], the index answers for version
    [1.5.0]: the adapter hands back [None]. *)
Lemma dependencies_for_other_version_witness :
  match discover_and_add (E:=Stale.index)
          ("b" +:+ "==" +:+ Version_str (Collaborators:=Stale.index) 100)
          Stale.stocked with
  | Return _ s' =>
      dependencies_for (E:=Stale.index) "b" 100 Stale.stocked = Return None s'
  | Raise e s' =>
      dependencies_for (E:=Stale.index) "b" 100 Stale.stocked = Raise e s'
  end.
Proof.
  apply (dependencies_for_other_version (E:=Stale.index) Stale.stocked "b" 100
           (Requirement.mk "b" [("==", "1.0.0")] "b==1.0.0")
           (Discovery.mk ["1.0.0"; "1.5.0"] "1.5.0" []));
    [discriminate|evaluate|evaluate|evaluate|].
  right. vm_compute. discriminate.
Defined.


(** A package [c] registered by hand with a requirement that does not
    parse. *)
Lemma failed_add_registers_name_witness :
  _packages (Demo.after (add "c" "1.0.0" (Some ["b b"])) Demo.fresh) !! "c" = Some ∅ ∧
  ∀ constraint,
    _versions_for "c" constraint (Demo.after (add "c" "1.0.0" (Some ["b b"])) Demo.fresh) =
    Return [] (Demo.after (add "c" "1.0.0" (Some ["b b"])) Demo.fresh).
Proof.
  apply (failed_add_registers_name Demo.fresh "c" "1.0.0" 100 ["b b"]
           (RequirementParseError "b b"));
    [reflexivity|evaluate|evaluate].
Defined.

(** Registering version [1.0.0] of [a] leaves version [2.0.0] alone. *)
Lemma add_leaves_other_entries_witness :
  versions_of (_packages (final (add "a" "1.0.0" (Some []) Demo.declared))) "a" !! 200 =
  versions_of (_packages Demo.declared) "a" !! 200.
Proof.
  apply (add_leaves_other_entries Demo.declared "a" "1.0.0" (Some []) "a" 200).
  right. vm_compute. discriminate.
Defined.


(** Version [1.5.0] was never recorded for [a]. *)
Lemma dependencies_for_unknown_version_witness :
  dependencies_for "a" 150 Demo.declared = Raise KeyError Demo.declared.
Proof.
  apply (dependencies_for_unknown_version Demo.declared "a" 150);
    [discriminate|evaluate].
Defined.

(** A root requirement the index cannot answer is a root dependency
    all the same. *)
Lemma root_dep_appends_witness :
  _root_dependencies (final (root_dep "b>1.0.0,!=1.5.0" Demo.fresh)) =
    [] ++ [Dependency.mk 0 "b"
             (IsVersionUnion [VersionRange.mk (Some 100) (Some 150) false false;
                              VersionRange.mk (Some 150) None false false])
             ">1.0.0,!=1.5.0"] ∧
  Demo.value (root_dep "b>1.0.0,!=1.5.0" Demo.fresh) = None.
Proof.
  split; [|evaluate].
  apply (proj2 (root_dep_appends Demo.fresh "b>1.0.0,!=1.5.0")
           (Requirement.mk "b" [(">", "1.0.0"); ("!=", "1.5.0")] "b>1.0.0,!=1.5.0"));
    evaluate.
Defined.

(** Once the root requirement [a] is declared, the versions of [a] are
    answered from the dictionary. *)
Lemma root_dep_then_versions_for_witness :
  is_Some (_packages Demo.declared !! "a") ∧
  ∀ constraint,
    _versions_for "a" constraint Demo.declared =
    Return (listing "a" constraint (_packages Demo.declared)) Demo.declared.
Proof.
  apply (root_dep_then_versions_for Demo.fresh "a" (Requirement.mk "a" [] "a")
           (Requirement.mk "a" [] "a") Demo.declared); evaluate.
Defined.

(** A requirement string the index does not know. *)
Lemma failed_discovery_keeps_cache_witness :
  ∃ s', discover_and_add "b>1.0.0,!=1.5.0" Demo.declared =
          Raise (DiscoveryError "b>1.0.0,!=1.5.0") s' ∧
        _packages s' = _packages Demo.declared ∧
        _root_dependencies s' = _root_dependencies Demo.declared ∧
        asked s' = asked Demo.declared ++ ["b>1.0.0,!=1.5.0"].
Proof.
  apply (proj2 (failed_discovery_keeps_cache Demo.declared "b>1.0.0,!=1.5.0")
           (Requirement.mk "b" [(">", "1.0.0"); ("!=", "1.5.0")] "b>1.0.0,!=1.5.0"));
    evaluate.
Defined.

(** [Zope] stays unknown, and is asked about again. *)
Lemma versions_for_twice_witness :
  _versions_for "b" (Some Demo.from_1_5) Demo.stocked = Return [150] Demo.stocked ∧
  asked (final (_versions_for "Zope" (Some Demo.from_1_0)
                  (final (_versions_for "Zope" (Some Demo.from_1_0) Demo.fresh)))) =
    [] ++ ["Zope>=1.0.0"; "Zope>=1.0.0"].
Proof.
  split.
  - apply (proj1 (versions_for_twice Demo.stocked "b" (Some Demo.from_1_5)));
      [evaluate|vm_compute; eauto].
  - apply (proj2 (versions_for_twice Demo.fresh "Zope" (Some Demo.from_1_0))
             (Requirement.mk "zope" [(">=", "1.0.0")] "Zope>=1.0.0")); evaluate.
Defined.

(** The versions of [b] from [1.5.0] on, out of all its versions. *)
Lemma versions_for_constraint_filters_witness :
  ∃ everything,
    _versions_for "b" None Demo.stocked = Return everything Demo.stocked ∧
    _versions_for "b" (Some Demo.from_1_5) Demo.stocked =
      Return (filter (λ version, accepts (Some Demo.from_1_5) version = true) everything)
             Demo.stocked.
Proof.
  apply (versions_for_constraint_filters (VersionOrder0:=index_order)
           Demo.stocked "b" (Some Demo.from_1_5)).
  vm_compute. eauto.
Defined.

(** Asked about the versions of [a] from [2.0.0] on, the index answers
    for version [2.0.0], which has its list, and lists [1.0.0] only. *)
Lemma discover_and_add_refuses_recorded_witness :
  ∃ s', discover_and_add (E:=Stale.index) "a>=2.0.0" Stale.stocked =
          Raise (E:=Stale.index) (ValueError (E:=Stale.index) "a" 200) s' ∧
        Stale.entry s' "a" 200 = Some (Some [Demo.b_dep 1]) ∧
        Stale.entry s' "a" 100 = Some None.
Proof.
  destruct (discover_and_add_refuses_recorded (E:=Stale.index) Stale.stocked "a>=2.0.0"
              (Requirement.mk "a" [(">=", "2.0.0")] "a>=2.0.0")
              (Discovery.mk ["1.0.0"] "2.0.0" []) 200 [Demo.b_dep 1])
    as (s' & Hrun & Hlist & Hnone);
    [evaluate|evaluate|all_parse|evaluate| |evaluate|].
  { repeat constructor. vm_compute. discriminate. }
  exists s'. split; [done|]. split; [done|].
  apply (Hnone "1.0.0" 100); [member|reflexivity].
Defined.

(** After the discovery of [a], both its versions are on offer. *)
Lemma discovered_versions_listed_witness :
  ∃ s' vs,
    discover_and_add "a" Demo.fresh = Return tt s' ∧
    _versions_for "a" None s' = Return vs s' ∧
    200 ∈ vs ∧ 100 ∈ vs.
Proof.
  destruct (discovered_versions_listed Demo.fresh "a" (Requirement.mk "a" [] "a")
              (Discovery.mk ["1.0.0"; "2.0.0"] "2.0.0" ["b>=1.0.0,<2.0.0"]) 200)
    as (s' & vs & Hrun & Hvs & Hin & Hall);
    [evaluate|evaluate|all_parse|evaluate|left; member|all_well_formed|].
  exists s', vs. repeat split; try done.
  apply (Hall "1.0.0" 100); [member|reflexivity].
Defined.

(** The list of version [2.0.0] of [a] outlives a refused
    registration. *)
Lemma add_never_replaces_list_witness :
  [Demo.b_dep 1] = [Demo.b_dep 1].
Proof.
  apply (add_never_replaces_list Demo.declared "a" "2.0.0" (Some []) "a" 200);
    evaluate.
Defined.
